(** * bprint: binary layout compiler, print-format expander, record loop

    A shallow embedding of [bprint.go].  Go strings are byte sequences and
    are modelled as [list ascii]; Go's [int] is the 64-bit signed integer,
    modelled as [Z] with the wrap-around written out ([wrap]).  A panic is
    an explicit outcome of the [result] type. *)

From Stdlib Require Import ZArith List Ascii String Bool Lia.
From Stdlib Require Strings.Byte.
From stdpp Require Import base list.
Import ListNotations.

Local Open Scope string_scope.
Local Open Scope list_scope.
Local Open Scope Z_scope.

(** ** Go strings *)

Abbreviation gostring := (list ascii).

Coercion list_ascii_of_string : string >-> list.

(** ** Go's [int]: 64 bits, two's complement *)

Module Int.

Definition min : Z := - 2 ^ 63.
Definition max : Z := 2 ^ 63 - 1.

Definition wrap (z : Z) : Z := (z + 2 ^ 63) mod 2 ^ 64 - 2 ^ 63.

Definition add (x y : Z) : Z := wrap (x + y).
Definition sub (x y : Z) : Z := wrap (x - y).
Definition mul (x y : Z) : Z := wrap (x * y).

End Int.

(** ** Panics and results *)

Inductive panic : Type :=
| PanicDanglingRepeat
    (* panic("Data specifier error: repeat number without previous data specifier") *)
| PanicUnsupported (c : ascii)
    (* panic(fmt.Sprintf("Data specifier '%c' not supported", c)) *)
| PanicSliceBounds
    (* runtime error: slice bounds out of range *)
| PanicIndexRange
    (* runtime error: index out of range *)
| PanicRepeatCount
    (* strings.Repeat: negative count or output length overflow *)
| PanicAtoi (s : gostring)
    (* panic(err) with the *strconv.NumError of strconv.Atoi *)
| PanicMismatch (binary print : Z).
    (* panic(fmt.Sprintf("Binary spec has %d fields, print fmt has %d fields. Not match.", ...)) *)

Inductive result (A : Type) : Type :=
| Ok (a : A)
| Panic (p : panic).

Arguments Ok {A} a.
Arguments Panic {A} p.

Definition bind {A B : Type} (r : result A) (f : A -> result B) : result B :=
  match r with
  | Ok a => f a
  | Panic p => Panic p
  end.

Notation "'try' x <- r 'in' k" := (bind r (fun x => k))
  (at level 10, x pattern, r at level 100, k at level 200).

(** ** Integer types and the specifier table *)

Inductive intType : Type :=
| I8 | I16 | I32 | I64
| U8 | U16 | U32 | U64
| noType.

Record intDesc : Type := mkDesc { typeId : intType; size : Z }.

Definition descCharMap (b : ascii) : option intDesc :=
  if Ascii.eqb b "c" then Some (mkDesc I8 1)
  else if Ascii.eqb b "s" then Some (mkDesc I16 2)
  else if Ascii.eqb b "l" then Some (mkDesc I32 4)
  else if Ascii.eqb b "q" then Some (mkDesc I64 8)
  else if Ascii.eqb b "C" then Some (mkDesc U8 1)
  else if Ascii.eqb b "S" then Some (mkDesc U16 2)
  else if Ascii.eqb b "L" then Some (mkDesc U32 4)
  else if Ascii.eqb b "Q" then Some (mkDesc U64 8)
  else None.

Definition byteVal (b : ascii) : Z := Z.of_N (N_of_ascii b).

Arguments byteVal b%_char.

Definition isDigit (b : ascii) : bool :=
  (byteVal "0" <=? byteVal b) && (byteVal b <=? byteVal "9").

(** ** parseBinaryFmtSpec *)

Record parseState : Type := mkParse {
  formatDesc : list intType;
  recSize : Z;
  repeatNum : Z;
  prevDesc : intDesc
}.

(** [for i := 0; i < cnt; i++ { formatDesc = append(formatDesc, t) }] *)
Definition appendTimes (fd : list intType) (cnt : Z) (t : intType) : list intType :=
  fd ++ repeat t (Z.to_nat cnt).

Definition isNoType (t : intType) : bool :=
  match t with noType => true | _ => false end.

Definition parseStep (st : parseState) (b : ascii) : result parseState :=
  match descCharMap b with
  | Some desc =>
      let st1 :=
        if repeatNum st =? 0 then st
        else mkParse
               (appendTimes (formatDesc st) (Int.sub (repeatNum st) 1)
                  (typeId (prevDesc st)))
               (Int.add (recSize st)
                  (Int.mul (Int.sub (repeatNum st) 1) (size (prevDesc st))))
               0
               (prevDesc st) in
      Ok (mkParse (formatDesc st1 ++ [typeId desc])
            (Int.add (recSize st1) (size desc))
            (repeatNum st1)
            desc)
  | None =>
      if isDigit b then
        if isNoType (typeId (prevDesc st)) then Panic PanicDanglingRepeat
        else Ok (mkParse (formatDesc st) (recSize st)
                   (Int.sub (Int.add (Int.mul (repeatNum st) 10) (byteVal b))
                      (byteVal "0"))
                   (prevDesc st))
      else Panic (PanicUnsupported b)
  end.

Fixpoint parseLoop (st : parseState) (binFmt : gostring) : result parseState :=
  match binFmt with
  | [] => Ok st
  | b :: rest => try st' <- parseStep st b in parseLoop st' rest
  end.

Definition parseFinish (st : parseState) : list intType * Z :=
  (appendTimes (formatDesc st) (Int.sub (repeatNum st) 1) (typeId (prevDesc st)),
   if repeatNum st =? 0 then recSize st
   else Int.add (recSize st)
          (Int.mul (Int.sub (repeatNum st) 1) (size (prevDesc st)))).

Definition parseInit : parseState := mkParse [] 0 0 (mkDesc noType (-1)).

Definition parseBinaryFmtSpec (binFmt : gostring) : result (list intType * Z) :=
  try st <- parseLoop parseInit binFmt in Ok (parseFinish st).

(** ** Slices, [strings.Repeat], [strconv.Atoi] *)

Definition len {A : Type} (s : list A) : Z := Z.of_nat (length s).

(** [s[lo:hi]] at indices that are in bounds: the only such slices of
    the program are taken at the indices of a match, which are in order
    and within the text ([findAll_sliceable] below). *)
Definition substr (s : gostring) (lo hi : nat) : gostring :=
  take (hi - lo) (drop lo s).

(** [s[:hi]] for a computed, possibly negative bound: Go panics when the
    bound is out of range. *)
Definition sliceTo (s : gostring) (hi : Z) : result gostring :=
  if (hi <? 0) || (len s <? hi) then Panic PanicSliceBounds
  else Ok (take (Z.to_nat hi) s).

(** [strings.Repeat]: panics on a negative count and when the length of
    the result does not fit in an [int]. *)
Definition stringsRepeat (s : gostring) (count : Z) : result gostring :=
  if count <? 0 then Panic PanicRepeatCount
  else if Int.max <? len s * count then Panic PanicRepeatCount
  else Ok (concat (repeat s (Z.to_nat count))).

Definition digitVal (b : ascii) : Z := byteVal b - byteVal "0".

Definition decimal (s : gostring) : Z :=
  fold_left (fun acc b => acc * 10 + digitVal b) s 0.

(** [strconv.Atoi] on a run of decimal digits (the only strings the
    caller passes, group 3 of the repeat pattern): an error when the
    string is empty, has a byte that is no digit, or denotes a value
    above the largest [int]. *)
Definition strconvAtoi (s : gostring) : option Z :=
  match s with
  | [] => None
  | _ => if forallb isDigit s && (decimal s <=? Int.max)
         then Some (decimal s) else None
  end.

(** ** Regular expressions (package regexp)

    Only the constructs of the two patterns of the program.  Matching is
    on bytes: every byte that a pattern of the program names is ASCII, so
    a match begins with, and ends after, the same "%" and letter whether
    the text is read as bytes or as runes (only the byte that the count
    pattern takes before a "%" may be the last byte of a longer rune).
    Go returns the leftmost match and, among those, the one a
    backtracking search finds first; [exec] is that backtracking search,
    written with a continuation for what follows in the pattern. *)

Inductive regex : Type :=
| Class (p : ascii -> bool)    (* one byte of a character class *)
| Star (p : ascii -> bool)     (* greedy repetition of a class *)
| BeginText                    (* ^ *)
| Seq (r1 r2 : regex)
| Alt (r1 r2 : regex)
| Group (i : nat) (r : regex). (* capturing group number i *)

Definition Plus (p : ascii -> bool) : regex := Seq (Class p) (Star p).

Definition captures := list (option (nat * nat)).

Section Exec.

Context {R : Type}.

Fixpoint starLoop (p : ascii -> bool) (s : gostring) (pos : nat)
    (k : gostring -> nat -> option R) : option R :=
  match s with
  | c :: s' =>
      if p c then
        match starLoop p s' (S pos) k with
        | Some r => Some r
        | None => k s pos
        end
      else k s pos
  | [] => k s pos
  end.

Fixpoint exec (r : regex) (s : gostring) (pos : nat) (cs : captures)
    (k : gostring -> nat -> captures -> option R) : option R :=
  match r with
  | Class p =>
      match s with
      | c :: s' => if p c then k s' (S pos) cs else None
      | [] => None
      end
  | Star p => starLoop p s pos (fun s' pos' => k s' pos' cs)
  | BeginText => if (pos =? 0)%nat then k s pos cs else None
  | Seq r1 r2 => exec r1 s pos cs (fun s' pos' cs' => exec r2 s' pos' cs' k)
  | Alt r1 r2 =>
      match exec r1 s pos cs k with
      | Some m => Some m
      | None => exec r2 s pos cs k
      end
  | Group i r1 =>
      exec r1 s pos cs
        (fun s' pos' cs' => k s' pos' (<[i := Some (pos, pos')]> cs'))
  end.

End Exec.

(** A match: [v[0]], [v[1]] and the group bounds [v[2i]], [v[2i+1]]. *)
Record rmatch : Type := mkMatch {
  mstart : nat;
  mend : nat;
  mgroups : captures
}.

Definition group (m : rmatch) (i : nat) : nat * nat :=
  match mgroups m !! i with
  | Some (Some g) => g
  | _ => (0%nat, 0%nat)
  end.

Section Find.

Variable re : regex.
Variable ngroups : nat.

(** The match of [re] that starts at [pos], where [s] is the text from
    [pos] on. *)
Definition matchAt (s : gostring) (pos : nat) : option rmatch :=
  exec re s pos (replicate (S ngroups) None)
    (fun _ pos' cs => Some (mkMatch pos pos' cs)).

(** [FindAll...(s, -1)]: successive leftmost matches, each search
    starting where the previous match ended.  [skip] counts the bytes of
    the previous match still to be passed over.  Both patterns of the
    program match at least two bytes, so the library's special case for
    empty matches is not modelled. *)
Fixpoint findAllFrom (s : gostring) (pos skip : nat) : list rmatch :=
  match skip with
  | S skip' =>
      match s with
      | [] => []
      | _ :: s' => findAllFrom s' (S pos) skip'
      end
  | O =>
      match matchAt s pos with
      | Some m =>
          m :: match s with
               | [] => []
               | _ :: s' => findAllFrom s' (S pos) (mend m - pos - 1)
               end
      | None =>
          match s with
          | [] => []
          | _ :: s' => findAllFrom s' (S pos) 0
          end
      end
  end.

Definition findAll (s : gostring) : list rmatch := findAllFrom s 0 0.

End Find.

(** ** The print format *)

Definition inSet (set : gostring) (c : ascii) : bool :=
  existsb (Ascii.eqb c) set.

Definition isByte (c0 : ascii) (c : ascii) : bool := Ascii.eqb c c0.

Arguments isByte c0%_char c%_char.

(** The pattern "%[^cdxo%]*[cdxo]". *)
Definition specStr : regex :=
  Seq (Class (isByte "%"))
    (Seq (Star (fun c => negb (inSet "cdxo%" c))) (Class (inSet "cdxo"))).

(** The repeat shorthand: group 1 is [specStr], group 2 the separator
    "[^\d]*", group 3 the count "\d+", then "#". *)
Definition printSpecPat : regex :=
  Seq (Group 1 specStr)
    (Seq (Group 2 (Star (fun c => negb (isDigit c))))
       (Seq (Group 3 (Plus isDigit)) (Class (isByte "#")))).

(** The pattern "([^%]{1}%[^cdxo%]*[cdxo]|^%[^cdxo%]*[cdxo])". *)
Definition countSpecPat : regex :=
  Group 1
    (Alt (Seq (Class (fun c => negb (isByte "%" c))) specStr)
         (Seq BeginText specStr)).

Definition repeatWithSep (rep sep : gostring) (cnt : Z) : result gostring :=
  try printFmt <- stringsRepeat (rep ++ sep) cnt in
  sliceTo printFmt (len printFmt - len sep).

Definition generatePrintFmt (cnt : Z) (sep : gostring) : result gostring :=
  repeatWithSep "%02x" sep cnt.

(** One iteration of the loop over the matches: the buffer and
    [prevIdx]. *)
Definition processMatch (printFmt : gostring) (st : gostring * nat)
    (v : rmatch) : result (gostring * nat) :=
  let '(buf, prevIdx) := st in
  let buf := buf ++ substr printFmt prevIdx (mstart v) in
  let prevIdx := mend v in
  if (0 <? mstart v)%nat &&
     match printFmt !! (mstart v - 1)%nat with
     | Some c => isByte "%" c
     | None => false
     end
  then Ok (buf ++ substr printFmt (mstart v) (mend v), prevIdx)
  else
    let spec := substr printFmt (group v 1).1 (group v 1).2 in
    let sep := substr printFmt (group v 2).1 (group v 2).2 in
    let cntStr := substr printFmt (group v 3).1 (group v 3).2 in
    let sep := match sep with [] => " " : gostring | _ => sep end in
    match strconvAtoi cntStr with
    | None => Panic (PanicAtoi cntStr)
    | Some cnt =>
        try e <- repeatWithSep spec sep cnt in Ok (buf ++ e, prevIdx)
    end.

Fixpoint processMatches (printFmt : gostring) (st : gostring * nat)
    (mat : list rmatch) : result (gostring * nat) :=
  match mat with
  | [] => Ok st
  | v :: mat' =>
      try st' <- processMatch printFmt st v in
      processMatches printFmt st' mat'
  end.

Definition processPrintFmt (printFmt : gostring) : result gostring :=
  match findAll printSpecPat 3 printFmt with
  | [] => Ok printFmt
  | mat =>
      try st <- processMatches printFmt ([], 0%nat) mat in
      Ok (st.1 ++ drop st.2 printFmt)
  end.

Definition countPrintFmtSpec (printFmt : gostring) : Z :=
  len (findAll countSpecPat 1 printFmt).

(** ** The input stream and [binary.Read] *)

Inductive ioError : Type :=
| EOF                          (* io.EOF *)
| ErrUnexpectedEOF             (* io.ErrUnexpectedEOF *)
| ErrOther (msg : gostring).   (* any other failure of the source *)

(** The bytes still to come, and what the source reports once they are
    used up: [None] for the end of the stream, [Some msg] for a failure. *)
Record reader : Type := mkReader {
  pending : list Byte.byte;
  failure : option gostring
}.

(** [io.ReadFull] of [n] bytes, as [binary.Read] calls it: no byte at the
    end of the stream is [io.EOF], some but fewer than [n] is
    [io.ErrUnexpectedEOF]; another failure is passed on as it is. *)
Definition readFull (r : reader) (n : nat) : reader * (ioError + list Byte.byte) :=
  if (n <=? length (pending r))%nat then
    (mkReader (drop n (pending r)) (failure r), inr (take n (pending r)))
  else
    (mkReader [] (failure r),
     inl match failure r with
         | Some msg => ErrOther msg
         | None => match pending r with
                   | [] => EOF
                   | _ => ErrUnexpectedEOF
                   end
         end).

(** [byteOrder = binary.LittleEndian] *)
Fixpoint littleEndian (bs : list Byte.byte) : Z :=
  match bs with
  | [] => 0
  | b :: bs' => Z.of_N (Byte.to_N b) + 256 * littleEndian bs'
  end.

Definition toSigned (bits : Z) (u : Z) : Z :=
  if u <? 2 ^ (bits - 1) then u else u - 2 ^ bits.

(** The number of bytes [binary.Read] takes for the scratch variable of
    each type; [noType] has no case in the switch of [readData]. *)
Definition width (t : intType) : nat :=
  match t with
  | I8 | U8 => 1
  | I16 | U16 => 2
  | I32 | U32 => 4
  | I64 | U64 => 8
  | noType => 0
  end.

Definition decode (t : intType) (bs : list Byte.byte) : Z :=
  match t with
  | I8 => toSigned 8 (littleEndian bs)
  | I16 => toSigned 16 (littleEndian bs)
  | I32 => toSigned 32 (littleEndian bs)
  | I64 => toSigned 64 (littleEndian bs)
  | _ => littleEndian bs
  end.

(** The package-level scratch variables [i8] ... [u64]. *)
Record scratch : Type := mkScratch {
  i8 : Z; i16 : Z; i32 : Z; i64 : Z;
  u8 : Z; u16 : Z; u32 : Z; u64 : Z
}.

Definition scratchInit : scratch := mkScratch 0 0 0 0 0 0 0 0.

Definition getScratch (g : scratch) (t : intType) : Z :=
  match t with
  | I8 => i8 g | I16 => i16 g | I32 => i32 g | I64 => i64 g
  | U8 => u8 g | U16 => u16 g | U32 => u32 g | U64 => u64 g
  | noType => 0
  end.

Definition setScratch (g : scratch) (t : intType) (v : Z) : scratch :=
  match t with
  | I8 => mkScratch v (i16 g) (i32 g) (i64 g) (u8 g) (u16 g) (u32 g) (u64 g)
  | I16 => mkScratch (i8 g) v (i32 g) (i64 g) (u8 g) (u16 g) (u32 g) (u64 g)
  | I32 => mkScratch (i8 g) (i16 g) v (i64 g) (u8 g) (u16 g) (u32 g) (u64 g)
  | I64 => mkScratch (i8 g) (i16 g) (i32 g) v (u8 g) (u16 g) (u32 g) (u64 g)
  | U8 => mkScratch (i8 g) (i16 g) (i32 g) (i64 g) v (u16 g) (u32 g) (u64 g)
  | U16 => mkScratch (i8 g) (i16 g) (i32 g) (i64 g) (u8 g) v (u32 g) (u64 g)
  | U32 => mkScratch (i8 g) (i16 g) (i32 g) (i64 g) (u8 g) (u16 g) v (u64 g)
  | U64 => mkScratch (i8 g) (i16 g) (i32 g) (i64 g) (u8 g) (u16 g) (u32 g) v
  | noType => g
  end.

(** A value of type [interface{}]: [nil], an integer of one of the eight
    types, or an [int]. *)
Inductive iface : Type :=
| INil
| IVal (t : intType) (v : Z)
| IInt (v : Z).

(** ** readData *)

Record readState : Type := mkRead {
  rdReader : reader;
  rdScratch : scratch;
  rdData : list iface;
  rdN : nat;
  rdErr : option ioError
}.

(** [data[i] = x] *)
Definition setIndex (data : list iface) (i : nat) (x : iface) : result (list iface) :=
  if (i <? length data)%nat then Ok (<[i := x]> data) else Panic PanicIndexRange.

(** The body of the loop for field [i] of type [v], up to the test of
    [err]. *)
Definition readField (st : readState) (i : nat) (v : intType) : result readState :=
  match v with
  | noType => Ok st
  | _ =>
      let '(r, res) := readFull (rdReader st) (width v) in
      let '(g, err) :=
        match res with
        | inr bs => (setScratch (rdScratch st) v (decode v bs), None)
        | inl e => (rdScratch st, Some e)
        end in
      try data <- setIndex (rdData st) i (IVal v (getScratch g v)) in
      Ok (mkRead r g data (rdN st) err)
  end.

Fixpoint readFields (formatDesc : list intType) (i : nat) (st : readState)
    : result readState :=
  match formatDesc with
  | [] => Ok st
  | v :: rest =>
      try st' <- readField st i v in
      match rdErr st' with
      | Some _ => Ok st'
      | None =>
          readFields rest (S i)
            (mkRead (rdReader st') (rdScratch st') (rdData st') (S (rdN st')) None)
      end
  end.

Definition readData (binReader : reader) (g : scratch)
    (formatDesc : list intType) (data : list iface) : result readState :=
  readFields formatDesc 0%nat (mkRead binReader g data 0%nat None).

(** ** Standard output *)

Inductive operand : Type :=
| OStr (s : gostring)
| OErr (e : ioError)
| OPanic (p : panic).

Inductive event : Type :=
| Printf (format : gostring) (args : list iface)   (* fmt.Printf(format, args...) *)
| Println (args : list operand).                    (* fmt.Println(args...) *)

(** *** What [fmt.Printf] writes

    The part of package fmt that the templates of the program reach:
    literal text, "%%", and the verbs d, x, X and o with the flags 0 and -
    and a width.  [None] stands for a format outside that part. *)

Definition digitChar (d : Z) : ascii :=
  if d <? 10 then ascii_of_N (Z.to_N (byteVal "0" + d))
  else ascii_of_N (Z.to_N (byteVal "a" + d - 10)).

Fixpoint toBase (fuel : nat) (base u : Z) (acc : gostring) : gostring :=
  match fuel with
  | O => acc
  | S fuel' =>
      let acc' := digitChar (u mod base) :: acc in
      if u / base =? 0 then acc' else toBase fuel' base (u / base) acc'
  end.

Definition upper (c : ascii) : ascii :=
  if (byteVal "a" <=? byteVal c) && (byteVal c <=? byteVal "z")
  then ascii_of_N (Z.to_N (byteVal c - 32)) else c.

Definition ifaceValue (x : iface) : option Z :=
  match x with
  | INil => None
  | IVal _ v => Some v
  | IInt v => Some v
  end.

Definition typeName (x : iface) : gostring :=
  match x with
  | INil => "<nil>"
  | IVal I8 _ => "int8" | IVal I16 _ => "int16"
  | IVal I32 _ => "int32" | IVal I64 _ => "int64"
  | IVal U8 _ => "uint8" | IVal U16 _ => "uint16"
  | IVal U32 _ => "uint32" | IVal U64 _ => "uint64"
  | IVal noType _ => "main.intType"
  | IInt _ => "int"
  end.

Definition itoa (v : Z) : gostring :=
  (if v <? 0 then ["-"%char] else []) ++ toBase 64 10 (Z.abs v) [].

(** fmtInteger: the digits, zero-padded to the width when the flag 0 is
    set without the flag -, the sign, then spaces up to the width. *)
Definition fmtInteger (zero minus : bool) (wid : option Z) (verb : ascii) (v : Z)
    : gostring :=
  let base := if Ascii.eqb verb "d" then 10
              else if Ascii.eqb verb "o" then 8 else 16 in
  let digits := toBase 64 base (Z.abs v) [] in
  let digits := if Ascii.eqb verb "X" then map upper digits else digits in
  let prec := match wid with
              | Some w => if zero && negb minus
                          then (if v <? 0 then w - 1 else w) else 0
              | None => 0
              end in
  let digits := repeat "0"%char (Z.to_nat (prec - len digits)) ++ digits in
  let body := (if v <? 0 then ["-"%char] else []) ++ digits in
  let padding := repeat " "%char
                   (Z.to_nat (match wid with Some w => w | None => 0 end - len body)) in
  if minus then body ++ padding else padding ++ body.

Inductive fmtState : Type :=
| InText
| InFlags (zero minus : bool)
| InWidth (zero minus : bool) (wid : Z).

Definition extraArgs (args : list iface) : option gostring :=
  match args with
  | [] => Some []
  | _ =>
      if forallb (fun x => match x with INil => false | _ => true end) args then
        Some ("%!(EXTRA " ++
              concat (map (fun x => typeName x ++ "=" ++
                                    match ifaceValue x with
                                    | Some v => itoa v
                                    | None => []
                                    end ++ ", ") (removelast args)) ++
              match last args with
              | Some x => typeName x ++ "=" ++
                          match ifaceValue x with
                          | Some v => itoa v
                          | None => []
                          end
              | None => []
              end ++ ")")
      else None
  end.

Definition doVerb (zero minus : bool) (wid : option Z) (verb : ascii)
    (args : list iface) : option (gostring * list iface) :=
  if Ascii.eqb verb "%" then Some (["%"%char], args)
  else if inSet "dxXo" verb then
    match args with
    | [] => Some ("%!" ++ [verb] ++ "(MISSING)", [])
    | x :: args' =>
        match ifaceValue x with
        | Some v => Some (fmtInteger zero minus wid verb v, args')
        | None => None
        end
    end
  else None.

Fixpoint sprintfLoop (format : gostring) (st : fmtState) (args : list iface)
    (out : gostring) : option gostring :=
  match format with
  | [] =>
      match st with
      | InText => extra ← extraArgs args; Some (out ++ extra)
      | _ => extra ← extraArgs args; Some (out ++ "%!(NOVERB)" ++ extra)
      end
  | c :: rest =>
      match st with
      | InText =>
          if Ascii.eqb c "%" then sprintfLoop rest (InFlags false false) args out
          else sprintfLoop rest InText args (out ++ [c])
      | InFlags zero minus =>
          if Ascii.eqb c "0" then sprintfLoop rest (InFlags true minus) args out
          else if Ascii.eqb c "-" then sprintfLoop rest (InFlags zero true) args out
          else if isDigit c then
            sprintfLoop rest (InWidth zero minus (digitVal c)) args out
          else
            '(text, args') ← doVerb zero minus None c args;
            sprintfLoop rest InText args' (out ++ text)
      | InWidth zero minus wid =>
          if isDigit c then
            if 1000000 <? wid * 10 + digitVal c then None
            else sprintfLoop rest (InWidth zero minus (wid * 10 + digitVal c)) args out
          else
            '(text, args') ← doVerb zero minus (Some wid) c args;
            sprintfLoop rest InText args' (out ++ text)
      end
  end.

Definition sprintf (format : gostring) (args : list iface) : option gostring :=
  sprintfLoop format InText args [].

(** ** printData and main *)

Record options : Type := mkOptions {
  printRecordCnt : bool;   (* -c *)
  printOffset : bool;      (* -o *)
  printVersion : bool;     (* -version *)
  binaryFmt : gostring;    (* -e, "C16" when not given *)
  printFmt : gostring      (* -p, empty when not given *)
}.

Definition defautlBinaryFmt : gostring := "C16".

Definition offsetFmt : gostring := "%07x ".

Definition newline : gostring := [ascii_of_nat 10].

Definition printData (opt : options) (offSet recordCnt : Z)
    (printFmt : gostring) (data : list iface) : list event :=
  (if printOffset opt then [Printf offsetFmt [IInt offSet]] else []) ++
  (if printRecordCnt opt then [Printf "%d: " [IInt recordCnt]] else []) ++
  [Printf printFmt data].

(** The state of the record loop: the reader, the scratch variables, the
    [data] array shared by all iterations, and the two counters. *)
Record loopState : Type := mkLoop {
  lpReader : reader;
  lpScratch : scratch;
  lpData : list iface;
  recordCnt : Z;
  offSet : Z
}.

(** What follows the loop: the trailing partial record or the final
    offset line, then the message for [err]. *)
Definition afterLoop (opt : options) (printFmt : gostring) (offSet recordCnt : Z)
    (data : list iface) (n : nat) (err : ioError) : list event :=
  (if negb (n =? 0)%nat then printData opt offSet recordCnt printFmt (take n data)
   else if printOffset opt then [Printf (offsetFmt ++ newline) [IInt offSet]]
   else []) ++
  match err with
  | EOF => []
  | ErrUnexpectedEOF =>
      [Println [OStr "EOF: final data not enough for the last field"]]
  | _ => [Println [OStr "While reading data:"; OErr err]]
  end.

(** The [for] loop of [main] and the statements after it.  The loop has
    no bound of its own; [fuel] bounds the number of records, and [None]
    says that it was used up.  The events written before a panic are
    kept. *)
Fixpoint recordLoop (fuel : nat) (opt : options) (formatDesc : list intType)
    (recordSize : Z) (printFmt : gostring) (st : loopState)
    : option (list event * option panic) :=
  match fuel with
  | O => None
  | S fuel' =>
      match readData (lpReader st) (lpScratch st) formatDesc (lpData st) with
      | Panic p => Some ([], Some p)
      | Ok rd =>
          match rdErr rd with
          | None =>
              let recordCnt' := Int.add (recordCnt st) 1 in
              let out := printData opt (offSet st) recordCnt' printFmt (rdData rd) in
              '(evs, p) ← recordLoop fuel' opt formatDesc recordSize printFmt
                            (mkLoop (rdReader rd) (rdScratch rd) (rdData rd)
                               recordCnt' (Int.add (offSet st) recordSize));
              Some (out ++ evs, p)
          | Some err =>
              Some (afterLoop opt printFmt (offSet st) (recordCnt st)
                      (rdData rd) (rdN rd) err, None)
          end
      end
  end.

(** Lines 301 to 314 of [main]: the layout, the template and the check
    that their field counts agree. *)
Definition setup (opt : options) : result (list intType * Z * gostring) :=
  try (formatDesc, recordSize) <- parseBinaryFmtSpec (binaryFmt opt) in
  let formatDescLen := len formatDesc in
  try printFmt <- (match printFmt opt with
                   | [] => generatePrintFmt formatDescLen " "
                   | p => Ok p
                   end) in
  try printFmt <- processPrintFmt printFmt in
  let printSpecCnt := countPrintFmtSpec printFmt in
  if negb (printSpecCnt =? formatDescLen)
  then Panic (PanicMismatch formatDescLen printSpecCnt)
  else Ok (formatDesc, recordSize, printFmt ++ newline).

(** The file named on the command line: [os.Open] fails, or there is a
    stream to read. *)
Inductive source : Type :=
| OpenFails (err : gostring)
| Opened (r : reader).

(** [main]: the events written to standard output and the exit status.
    A panic is recovered by the deferred function, which prints it and
    exits with status 1. *)
Definition main (fuel : nat) (opt : options) (src : source)
    : option (list event * Z) :=
  if printVersion opt then Some ([Println [OStr "bprint version"; OStr "0.1"]], 0)
  else
    match src with
    | OpenFails err => Some ([Println [OStr "While opening file:"; OStr err]], 1)
    | Opened binReader =>
        match setup opt with
        | Panic p => Some ([Println [OPanic p]], 1)
        | Ok (formatDesc, recordSize, printFmt) =>
            let data := replicate (length formatDesc) INil in
            '(evs, p) ← recordLoop fuel opt formatDesc recordSize printFmt
                          (mkLoop binReader scratchInit data 0 0);
            match p with
            | Some p => Some (evs ++ [Println [OPanic p]], 1)
            | None => Some (evs, 0)
            end
        end
    end.

(** The text of an event, where [sprintf] covers its format. *)
Definition render (e : event) : option gostring :=
  match e with
  | Printf format args => sprintf format args
  | Println [OStr s] => Some (s ++ newline)
  | Println _ => None
  end.

(** ** Vocabulary of the statements

    Definitions that follow the words of the specification; the
    properties below compare them with the functions of the program. *)

(** The byte width of a field. *)
Definition byteWidth (t : intType) : Z := Z.of_nat (width t).

Definition signed (t : intType) : bool :=
  match t with
  | I8 | I16 | I32 | I64 => true
  | _ => false
  end.

(** A layout specifier as the specification reads it: type letters, each
    with its run of digits (empty for a bare letter). *)
Definition layoutItem : Type := (ascii * gostring)%type.

Definition wfItem (it : layoutItem) : bool :=
  match descCharMap it.1 with Some _ => true | None => false end &&
  forallb isDigit it.2.

Definition renderItems (items : list layoutItem) : gostring :=
  flat_map (fun it => it.1 :: it.2) items.

(** The repeat count an item declares: 1 for a bare letter. *)
Definition declaredCount (it : layoutItem) : Z :=
  match it.2 with
  | [] => 1
  | ds => decimal ds
  end.

(** The count the compiler applies: a declared count of 0 leaves the one
    field of the letter in place. *)
Definition effectiveCount (it : layoutItem) : Z :=
  if decimal it.2 =? 0 then 1 else decimal it.2.

Definition letterType (c : ascii) : intType :=
  match descCharMap c with Some d => typeId d | None => noType end.

Definition itemFields (it : layoutItem) : list intType :=
  repeat (letterType it.1) (Z.to_nat (effectiveCount it)).

Definition sumZ (l : list Z) : Z := fold_right Z.add 0 l.

Definition itemsFields (items : list layoutItem) : list intType :=
  flat_map itemFields items.

Definition itemSize (it : layoutItem) : Z :=
  effectiveCount it * byteWidth (letterType it.1).

Definition itemsSize (items : list layoutItem) : Z :=
  sumZ (map itemSize items).

(** [l] joined by [sep]. *)
Definition joinWith (sep : gostring) (l : list gostring) : gostring :=
  match l with
  | [] => []
  | x :: l' => x ++ concat (map (fun y => sep ++ y) l')
  end.

(** The default template in the words of the specification: one
    two-digit zero-padded hex directive per field, separated by spaces. *)
Definition defaultTemplate (n : nat) : gostring :=
  joinWith " " (repeat ("%02x" : gostring) n).

(** A conversion directive: "%", then bytes other than c, d, x, o and
    "%", then one of c, d, x, o.  [directiveBody] reads what follows the
    "%". *)
Fixpoint directiveBody (s : gostring) : bool :=
  match s with
  | [] => false
  | c :: s' =>
      if inSet "cdxo" c then true
      else if isByte "%" c then false
      else directiveBody s'
  end.

Definition directiveAt (s : gostring) : bool :=
  match s with
  | c :: s' => isByte "%" c && directiveBody s'
  | [] => false
  end.

(** The live directives of a string: those that are not immediately
    preceded by a "%".  [prev] is the byte before [s]. *)
Fixpoint liveFrom (prev : option ascii) (s : gostring) : Z :=
  match s with
  | [] => 0
  | c :: s' =>
      (if directiveAt s &&
          negb match prev with Some b => isByte "%" b | None => false end
       then 1 else 0) + liveFrom (Some c) s'
  end.

Definition liveDirectives (s : gostring) : Z := liveFrom None s.

(** A template as the specification reads it: literal text without "%"
    and repeat shorthands, conversion, separator, digits, "#". *)
Inductive segment : Type :=
| Lit (text : gostring)
| Rep (mods : gostring) (letter : ascii) (sep digits : gostring).

Definition conversion (mods : gostring) (letter : ascii) : gostring :=
  "%"%char :: mods ++ [letter].

Definition renderSegment (seg : segment) : gostring :=
  match seg with
  | Lit text => text
  | Rep mods letter sep digits =>
      conversion mods letter ++ sep ++ digits ++ ["#"%char]
  end.

Definition renderTemplate (segs : list segment) : gostring :=
  flat_map renderSegment segs.

(** The separator of a shorthand: a single space when none is written. *)
Definition separatorOf (sep : gostring) : gostring :=
  match sep with
  | [] => " "
  | _ => sep
  end.

Definition expandSegment (seg : segment) : gostring :=
  match seg with
  | Lit text => text
  | Rep mods letter sep digits =>
      joinWith (separatorOf sep)
        (repeat (conversion mods letter) (Z.to_nat (decimal digits)))
  end.

Definition expandTemplate (segs : list segment) : gostring :=
  flat_map expandSegment segs.

Definition wfSegment (seg : segment) : bool :=
  match seg with
  | Lit text => forallb (fun c => negb (isByte "%" c)) text
  | Rep mods letter sep digits =>
      forallb (fun c => negb (inSet "cdxo%" c)) mods &&
      inSet "cdxo" letter &&
      forallb (fun c => negb (isDigit c)) sep &&
      negb (length digits =? 0)%nat && forallb isDigit digits &&
      (1 <=? decimal digits) &&
      ((len (conversion mods letter) + len (separatorOf sep)) * decimal digits
         <=? Int.max)
  end.

(** Whether the match [v] in [printFmt] is directly preceded by "%". *)
Definition escaped (printFmt : gostring) (v : rmatch) : bool :=
  (0 <? mstart v)%nat &&
  match printFmt !! (mstart v - 1)%nat with
  | Some c => isByte "%" c
  | None => false
  end.

(** The bytes of a record, one chunk per field of the layout. *)
Definition shaped (fd : list intType) (chunks : list (list Byte.byte)) : Prop :=
  Forall2 (fun t c => length c = width t) fd chunks.

(** The bytes of a run of records. *)
Definition recordsBytes (recs : list (list (list Byte.byte))) : list Byte.byte :=
  flat_map (fun rec => concat rec) recs.

(** The values decoded from the chunks. *)
Definition values (fd : list intType) (chunks : list (list Byte.byte)) : list iface :=
  zip_with (fun t c => IVal t (decode t c)) fd chunks.

(** What the loop prints for a run of full records, from the offset and
    the record count it starts with. *)
Fixpoint fullRecords (opt : options) (recordSize : Z) (printFmt : gostring)
    (fd : list intType) (offSet recordCnt : Z)
    (recs : list (list (list Byte.byte))) : list event :=
  match recs with
  | [] => []
  | rec :: recs' =>
      printData opt offSet (Int.add recordCnt 1) printFmt (values fd rec) ++
      fullRecords opt recordSize printFmt fd
        (Int.add offSet recordSize) (Int.add recordCnt 1) recs'
  end.

Definition offsetAfter {A} (recordSize offSet : Z) (recs : list A) : Z :=
  fold_left (fun o _ => Int.add o recordSize) recs offSet.

Definition countAfter {A} (recordCnt : Z) (recs : list A) : Z :=
  fold_left (fun c _ => Int.add c 1) recs recordCnt.

(** The error of the read that finds fewer bytes than the field needs:
    [rest] are the bytes left, [failure] what the source reports after
    them. *)
Definition endError (failure : option gostring) (rest : list Byte.byte) : ioError :=
  match failure with
  | Some msg => ErrOther msg
  | None => match rest with
            | [] => EOF
            | _ => ErrUnexpectedEOF
            end
  end.

Definition insufficientData : event :=
  Println [OStr "EOF: final data not enough for the last field"].

(** The conversion, the separator and the digits of a match of the
    repeat pattern in [printFmt], read off its groups as
    [processPrintFmt] does. *)
Definition convOf (printFmt : gostring) (v : rmatch) : gostring :=
  substr printFmt (group v 1).1 (group v 1).2.

Definition sepOf (printFmt : gostring) (v : rmatch) : gostring :=
  substr printFmt (group v 2).1 (group v 2).2.

Definition digitsOf (printFmt : gostring) (v : rmatch) : gostring :=
  substr printFmt (group v 3).1 (group v 3).2.


(** ** Auxiliary notions of the proofs *)

(** The digits read so far, as the loop of the compiler accumulates
    them from [r]. *)
Definition accDigits (r : Z) (ds : gostring) : Z :=
  fold_left (fun acc b => acc * 10 + digitVal b) ds r.

(** The invariant of the compiler loop: no field is [noType], and a
    repeat count is pending only after a type letter. *)
Definition parseInv (st : parseState) : Prop :=
  Forall (fun t => t <> noType) (formatDesc st) /\
  (typeId (prevDesc st) = noType -> repeatNum st = 0).

(** The text [s] does not go on with a byte of the class [p]. *)
Definition stops (p : ascii -> bool) (s : gostring) : Prop :=
  match s with
  | [] => True
  | c :: _ => p c = false
  end.

(** The matches come in order: each starts at or after the end of the
    one before. *)
Fixpoint ordered (prev : nat) (mat : list rmatch) : Prop :=
  match mat with
  | [] => True
  | m :: mat' =>
      (prev <= mstart m)%nat /\ (mstart m <= mend m)%nat /\ ordered (mend m) mat'
  end.

(** Every group that is set lies before [bound]. *)
Definition capsWithin (bound : nat) (cs : captures) : Prop :=
  Forall (fun c => match c with
                   | Some (a, b) => (a <= b <= bound)%nat
                   | None => True
                   end) cs.

(** The indices of a match are slice bounds of a text of length [n]. *)
Definition sliceable (n : nat) (v : rmatch) : Prop :=
  (mstart v <= mend v <= n)%nat /\
  forall i, ((group v i).1 <= (group v i).2 <= n)%nat.

Definition wfSegments (segs : list segment) : Prop :=
  Forall (fun seg => wfSegment seg = true) segs.

(** The directive of the default template. *)
Definition hexSpec : gostring := "%02x".

(** What a match of a pattern consists of: [matched r pos l cs cs']
    says that [r] matches the text [l] at position [pos] and turns the
    groups [cs] into [cs']. *)
Inductive matched : regex -> nat -> gostring -> captures -> captures -> Prop :=
| M_Class p pos c cs :
    p c = true -> matched (Class p) pos [c] cs cs
| M_Star p pos l cs :
    forallb p l = true -> matched (Star p) pos l cs cs
| M_Begin cs :
    matched BeginText 0 [] cs cs
| M_Seq r1 r2 pos l1 l2 cs cs1 cs2 :
    matched r1 pos l1 cs cs1 ->
    matched r2 (pos + length l1) l2 cs1 cs2 ->
    matched (Seq r1 r2) pos (l1 ++ l2) cs cs2
| M_AltL r1 r2 pos l cs cs' :
    matched r1 pos l cs cs' -> matched (Alt r1 r2) pos l cs cs'
| M_AltR r1 r2 pos l cs cs' :
    matched r2 pos l cs cs' -> matched (Alt r1 r2) pos l cs cs'
| M_Group i r pos l cs cs' :
    matched r pos l cs cs' ->
    matched (Group i r) pos l cs (<[i := Some (pos, (pos + length l)%nat)]> cs').

(** ** Concrete inputs *)

Import Strings.Byte.

(** The items of the specifier "sL2c". *)
Definition items_sL2c : list layoutItem :=
  [("s"%char, []); ("L"%char, "2" : gostring); ("c"%char, [])].

(** The options of a run with the layout "C2" and the template [p]. *)
Definition layoutC2 (p : gostring) : options := mkOptions false false false "C2" p.

(** The template that [setup] derives for the layout "C2". *)
Definition templateC2 : gostring := "%02x %02x" ++ newline.

(** ** Notions of the further properties *)

Definition isLetter (c : ascii) : bool :=
  match descCharMap c with Some _ => true | None => false end.

(** The first byte after a type letter that is neither a type letter nor
    a digit. *)
Fixpoint firstBad (s : gostring) : option panic :=
  match s with
  | [] => None
  | c :: s' =>
      if isLetter c || isDigit c then firstBad s'
      else Some (PanicUnsupported c)
  end.

(** The panic a layout specifier ends in, if any: a digit in the first
    place, or the first byte that is neither a type letter nor a digit. *)
Definition firstError (s : gostring) : option panic :=
  match s with
  | [] => None
  | c :: s' =>
      if isLetter c then firstBad s'
      else if isDigit c then Some PanicDanglingRepeat
      else Some (PanicUnsupported c)
  end.

(** The compiler state with the fields [F] in front and [Z] bytes more. *)
Definition shiftState (F : list intType) (Z : Z) (st : parseState) : parseState :=
  mkParse (F ++ formatDesc st) (Int.add Z (recSize st)) (repeatNum st) (prevDesc st).

(** The text after the conversion that begins after a "%": what follows
    its letter. *)
Fixpoint afterBody (s : gostring) : option gostring :=
  match s with
  | [] => None
  | c :: s' =>
      if inSet "cdxo" c then Some s'
      else if isByte "%" c then None
      else afterBody s'
  end.

(** No conversion of [s] is directly followed by a "%". *)
Fixpoint spaced (s : gostring) : bool :=
  match s with
  | [] => true
  | c :: s' =>
      (if isByte "%" c
       then match afterBody s' with
            | Some (c' :: _) => negb (isByte "%" c')
            | _ => true
            end
       else true) && spaced s'
  end.

(** The two lower-case hex digits of a byte. *)
Definition hexByte (b : byte) : gostring :=
  [digitChar (Z.of_N (Byte.to_N b) / 16); digitChar (Z.of_N (Byte.to_N b) mod 16)].

(* ================================================================= *)
(** * Properties *)

(** ** Sanity checks on concrete inputs *)

Example parse_C16 :
  parseBinaryFmtSpec "C16" = Ok (repeat U8 16, 16).
Proof. vm_compute. reflexivity. Qed.

Example parse_5 : parseBinaryFmtSpec "5" = Panic PanicDanglingRepeat.
Proof. reflexivity. Qed.

Example expand_4 :
  processPrintFmt "%02x4#" = Ok ("%02x %02x %02x %02x" : gostring).
Proof. vm_compute. reflexivity. Qed.

Example expand_comma :
  processPrintFmt "%02x,3#" = Ok ("%02x,%02x,%02x" : gostring).
Proof. vm_compute. reflexivity. Qed.

Example expand_escaped :
  processPrintFmt "%%02x4# %d2#" = Ok ("%%02x4# %d %d" : gostring).
Proof. vm_compute. reflexivity. Qed.

Example expand_zero : processPrintFmt "%x0#" = Panic PanicSliceBounds.
Proof. vm_compute. reflexivity. Qed.

Example count_adjacent : countPrintFmtSpec "%x%x" = 1.
Proof. vm_compute. reflexivity. Qed.

Example count_spaced : countPrintFmtSpec "%02x %02x, %d%%d %c" = 4.
Proof. vm_compute. reflexivity. Qed.

Example sprintf_full :
  sprintf "%02x %02x" [IVal U8 1; IVal U8 171] = Some ("01 ab" : gostring).
Proof. vm_compute. reflexivity. Qed.

Example sprintf_short :
  sprintf "%02x %02x" [IVal U8 5] = Some ("05 %!x(MISSING)" : gostring).
Proof. vm_compute. reflexivity. Qed.

Example sprintf_offset :
  sprintf "%07x " [IInt 16] = Some ("0000010 " : gostring).
Proof. vm_compute. reflexivity. Qed.

Example sprintf_negative :
  sprintf "%04d|%-4d|%x" [IVal I8 (-5); IVal I8 7; IVal I16 (-255)]
  = Some ("-005|7   |-ff" : gostring).
Proof. vm_compute. reflexivity. Qed.

Example run_C2_four :
  main 10 (layoutC2 []) (Opened (mkReader [x01; x02; x03; x04] None))
  = Some ([Printf ("%02x %02x" ++ newline) [IVal U8 1; IVal U8 2];
           Printf ("%02x %02x" ++ newline) [IVal U8 3; IVal U8 4]], 0).
Proof. vm_compute. reflexivity. Qed.

(** ** 64-bit arithmetic *)

Lemma wrap_small z : Int.min <= z <= Int.max -> Int.wrap z = z.
Proof.
  unfold Int.wrap, Int.min, Int.max. intros H.
  rewrite Z.mod_small; lia.
Qed.

Lemma add_small x y : Int.min <= x + y <= Int.max -> Int.add x y = x + y.
Proof. apply wrap_small. Qed.

Lemma sub_small x y : Int.min <= x - y <= Int.max -> Int.sub x y = x - y.
Proof. apply wrap_small. Qed.

Lemma mul_small x y : Int.min <= x * y <= Int.max -> Int.mul x y = x * y.
Proof. apply wrap_small. Qed.

Lemma int_bounds : Int.min = -9223372036854775808 /\ Int.max = 9223372036854775807.
Proof. split; reflexivity. Qed.

(** ** The layout compiler *)

Section Parse.

Lemma descCharMap_cases b d :
  descCharMap b = Some d ->
  (b, d) ∈ [("c"%char, mkDesc I8 1); ("s"%char, mkDesc I16 2);
            ("l"%char, mkDesc I32 4); ("q"%char, mkDesc I64 8);
            ("C"%char, mkDesc U8 1); ("S"%char, mkDesc U16 2);
            ("L"%char, mkDesc U32 4); ("Q"%char, mkDesc U64 8)].
Proof.
  unfold descCharMap.
  repeat match goal with
         | |- context [Ascii.eqb b ?c] =>
             destruct (Ascii.eqb_spec b c) as [->|_];
             [intros [= <-]; repeat constructor|]
         end.
  discriminate.
Qed.

Lemma descCharMap_valid b d :
  descCharMap b = Some d ->
  typeId d <> noType /\ size d = byteWidth (typeId d) /\ 1 <= size d <= 8 /\
  isDigit b = false.
Proof.
  intros H%descCharMap_cases.
  repeat (apply elem_of_cons in H as [[= -> ->]|H];
          [repeat split; (discriminate || reflexivity || (cbn; lia))|]).
  inversion H.
Qed.

Lemma digit_not_letter b : isDigit b = true -> descCharMap b = None.
Proof.
  intros Hd. destruct (descCharMap b) eqn:E; [|reflexivity].
  apply descCharMap_valid in E as (_ & _ & _ & E). congruence.
Qed.

Lemma isDigit_range b : isDigit b = true -> 0 <= digitVal b <= 9.
Proof.
  unfold isDigit, digitVal. intros [H1 H2]%andb_prop.
  apply Z.leb_le in H1, H2. change (byteVal "0") with 48 in *.
  change (byteVal "9") with 57 in *. lia.
Qed.

Lemma wrap_add_l a b : Int.wrap (Int.wrap a + b) = Int.wrap (a + b).
Proof.
  unfold Int.wrap. f_equal.
  replace ((a + 2 ^ 63) mod 2 ^ 64 - 2 ^ 63 + b + 2 ^ 63)
    with ((a + 2 ^ 63) mod 2 ^ 64 + b) by lia.
  rewrite Zplus_mod_idemp_l. f_equal. lia.
Qed.

Lemma parseLoop_app s1 : forall st s2,
  parseLoop st (s1 ++ s2) = try st' <- parseLoop st s1 in parseLoop st' s2.
Proof.
  induction s1 as [|b s1 IH]; intros st s2; cbn; [reflexivity|].
  destruct (parseStep st b); cbn; auto.
Qed.

Lemma parseStep_letter st b d :
  descCharMap b = Some d ->
  parseStep st b =
  Ok (mkParse ((parseFinish st).1 ++ [typeId d])
        (Int.add (parseFinish st).2 (size d)) 0 d).
Proof.
  intros E. unfold parseStep, parseFinish. rewrite E. cbn.
  destruct (repeatNum st =? 0) eqn:R; cbn; [|reflexivity].
  apply Z.eqb_eq in R. rewrite R. unfold appendTimes.
  change (Z.to_nat (Int.sub 0 1)) with 0%nat. cbn. rewrite app_nil_r.
  reflexivity.
Qed.

Lemma accumulate_wrap r x y :
  Int.sub (Int.add (Int.mul r 10) x) y = Int.wrap (r * 10 + (x - y)).
Proof.
  unfold Int.sub, Int.add, Int.mul. rewrite wrap_add_l.
  replace (Int.wrap (r * 10 + x) - y) with (Int.wrap (r * 10 + x) + - y) by lia.
  rewrite wrap_add_l. apply (f_equal Int.wrap). lia.
Qed.

Lemma parseStep_digit st b :
  isDigit b = true -> typeId (prevDesc st) <> noType ->
  parseStep st b =
  Ok (mkParse (formatDesc st) (recSize st)
        (Int.wrap (repeatNum st * 10 + digitVal b)) (prevDesc st)).
Proof.
  intros Hd Hp. unfold parseStep. rewrite (digit_not_letter _ Hd), Hd.
  rewrite accumulate_wrap.
  destruct (typeId (prevDesc st)); try congruence; reflexivity.
Qed.

Lemma accDigits_ge ds : forall r,
  forallb isDigit ds = true -> 0 <= r -> r <= accDigits r ds.
Proof.
  induction ds as [|b ds IH]; intros r Hd Hr; cbn; [lia|].
  cbn in Hd. apply andb_prop in Hd as [Hb Hd].
  pose proof (isDigit_range _ Hb).
  etransitivity; [|apply IH; auto; lia]. lia.
Qed.

Lemma decimal_nonneg ds : forallb isDigit ds = true -> 0 <= decimal ds.
Proof. intros H. apply (accDigits_ge ds 0 H). lia. Qed.

Lemma parseLoop_digits ds : forall st rest,
  forallb isDigit ds = true -> typeId (prevDesc st) <> noType ->
  0 <= repeatNum st -> accDigits (repeatNum st) ds <= Int.max ->
  parseLoop st (ds ++ rest) =
  parseLoop (mkParse (formatDesc st) (recSize st)
               (accDigits (repeatNum st) ds) (prevDesc st)) rest.
Proof.
  induction ds as [|b ds IH]; intros st rest Hd Hp Hr Hmax.
  - destruct st; reflexivity.
  - cbn in Hd. apply andb_prop in Hd as [Hb Hd].
    pose proof (isDigit_range _ Hb) as Hrange.
    cbn [app parseLoop]. rewrite parseStep_digit by assumption. cbn [bind].
    assert (Hle : repeatNum st * 10 + digitVal b <= Int.max).
    { etransitivity; [|exact Hmax]. cbn. apply accDigits_ge; auto. lia. }
    rewrite wrap_small by (unfold Int.min; lia).
    rewrite IH; cbn; auto. lia.
Qed.

Lemma parseLoop_item st l d ds rest :
  descCharMap l = Some d -> forallb isDigit ds = true ->
  decimal ds <= Int.max ->
  parseLoop st (l :: ds ++ rest) =
  parseLoop (mkParse ((parseFinish st).1 ++ [typeId d])
               (Int.add (parseFinish st).2 (size d)) (decimal ds) d) rest.
Proof.
  intros E Hd Hmax. cbn [parseLoop]. rewrite (parseStep_letter _ _ _ E).
  cbn [bind]. rewrite parseLoop_digits; cbn; auto; try lia.
  apply (descCharMap_valid _ _ E).
Qed.

Lemma wfItem_inv it :
  wfItem it = true ->
  exists d, descCharMap it.1 = Some d /\ forallb isDigit it.2 = true /\
            letterType it.1 = typeId d.
Proof.
  unfold wfItem, letterType. intros [H1 H2]%andb_prop.
  destruct (descCharMap it.1) as [d|]; [|discriminate]. eauto.
Qed.

Lemma effectiveCount_pos it :
  forallb isDigit it.2 = true -> 1 <= effectiveCount it.
Proof.
  intros H%decimal_nonneg. unfold effectiveCount.
  destruct (decimal it.2 =? 0) eqn:E; [lia|]. apply Z.eqb_neq in E. lia.
Qed.

Lemma itemSize_nonneg it : wfItem it = true -> 0 <= itemSize it.
Proof.
  intros (d & E & Hd & Ht)%wfItem_inv. unfold itemSize.
  pose proof (effectiveCount_pos _ Hd). unfold byteWidth. nia.
Qed.

Lemma sumZ_cons x l : sumZ (x :: l) = x + sumZ l.
Proof. reflexivity. Qed.

Lemma itemsSize_cons it items :
  itemsSize (it :: items) = itemSize it + itemsSize items.
Proof. reflexivity. Qed.

Lemma itemsSize_nonneg items :
  Forall (fun it => wfItem it = true) items -> 0 <= itemsSize items.
Proof.
  induction 1 as [|it items H _ IH]; [cbn; lia|].
  pose proof (itemSize_nonneg _ H). rewrite itemsSize_cons. lia.
Qed.

(** The state after one item, seen through [parseFinish]. *)
Lemma parseFinish_item fd sz it d :
  descCharMap it.1 = Some d -> forallb isDigit it.2 = true ->
  decimal it.2 <= Int.max -> 0 <= sz -> sz + itemSize it <= Int.max ->
  parseFinish (mkParse (fd ++ [typeId d]) (Int.add sz (size d)) (decimal it.2) d)
  = (fd ++ itemFields it, sz + itemSize it).
Proof.
  intros E Hd Hmax Hsz Htot.
  pose proof (descCharMap_valid _ _ E) as (_ & Hw & Hs & _).
  pose proof (decimal_nonneg _ Hd) as Hn.
  pose proof (effectiveCount_pos _ Hd) as He.
  unfold itemSize, itemFields, effectiveCount, letterType in *. rewrite E in *.
  rewrite <- Hw in *.
  unfold parseFinish, appendTimes. cbn [formatDesc recSize repeatNum prevDesc].
  rewrite sub_small by (unfold Int.min, Int.max in *; lia).
  destruct (Z.eqb_spec (decimal it.2) 0) as [Hz|Hz].
  - rewrite Hz. cbn. rewrite app_nil_r.
    rewrite add_small by (unfold Int.min, Int.max in *; lia).
    f_equal. lia.
  - rewrite mul_small by (unfold Int.min, Int.max in *; nia).
    rewrite (add_small sz) by (unfold Int.min, Int.max in *; nia).
    rewrite add_small by (unfold Int.min, Int.max in *; nia).
    f_equal; [|lia].
    rewrite <- app_assoc. f_equal.
    replace (Z.to_nat (decimal it.2)) with (S (Z.to_nat (decimal it.2 - 1))) by lia.
    reflexivity.
Qed.

Lemma parseLoop_items items : forall st,
  Forall (fun it => wfItem it = true) items ->
  Forall (fun it : layoutItem => decimal it.2 <= Int.max) items ->
  0 <= (parseFinish st).2 ->
  (parseFinish st).2 + itemsSize items <= Int.max ->
  exists st', parseLoop st (renderItems items) = Ok st' /\
              parseFinish st' = ((parseFinish st).1 ++ itemsFields items,
                                 (parseFinish st).2 + itemsSize items).
Proof.
  induction items as [|it items IH]; intros st Hwf Hcnt Hsz Htot.
  - exists st. split; [reflexivity|].
    change (itemsFields []) with (@nil intType). change (itemsSize []) with 0.
    unfold parseFinish. cbn [fst snd]. now rewrite app_nil_r, Z.add_0_r.
  - inversion Hwf as [|? ? Hit Hwf']; subst. inversion Hcnt as [|? ? Hc Hcnt']; subst.
    destruct (wfItem_inv _ Hit) as (d & E & Hd & Ht).
    pose proof (itemSize_nonneg _ Hit) as Hi.
    pose proof (itemsSize_nonneg _ Hwf') as His.
    rewrite itemsSize_cons in Htot.
    change (renderItems (it :: items)) with ((it.1 :: it.2) ++ renderItems items).
    rewrite <- app_comm_cons, (parseLoop_item st _ _ _ _ E Hd Hc).
    pose proof (parseFinish_item (parseFinish st).1 (parseFinish st).2 it d
                  E Hd Hc Hsz ltac:(lia)) as Hfin.
    match type of Hfin with
    | parseFinish ?s = _ => destruct (IH s Hwf' Hcnt') as (st' & Hrun & Hres)
    end.
    + rewrite Hfin. cbn [fst snd]. lia.
    + rewrite Hfin. cbn [fst snd]. lia.
    + exists st'. split; [exact Hrun|]. rewrite Hres, Hfin. cbn [fst snd].
      rewrite itemsSize_cons, <- app_assoc. f_equal. lia.
Qed.

Lemma sum_widths_repeat t n :
  sumZ (map byteWidth (repeat t n)) = Z.of_nat n * byteWidth t.
Proof.
  induction n as [|n IH]; [reflexivity|].
  cbn [repeat map]. rewrite sumZ_cons, IH. lia.
Qed.

Lemma sumZ_app l1 l2 : sumZ (l1 ++ l2) = sumZ l1 + sumZ l2.
Proof.
  induction l1 as [|x l1 IH]; [reflexivity|].
  cbn [app]. rewrite !sumZ_cons, IH. lia.
Qed.

Lemma itemsFields_widths items :
  Forall (fun it => wfItem it = true) items ->
  sumZ (map byteWidth (itemsFields items)) = itemsSize items.
Proof.
  induction 1 as [|it items H _ IH]; [reflexivity|].
  rewrite itemsSize_cons, <- IH. unfold itemsFields. cbn [flat_map].
  rewrite map_app, sumZ_app. f_equal.
  unfold itemFields, itemSize. rewrite sum_widths_repeat.
  apply wfItem_inv in H as (d & _ & Hd & _).
  pose proof (effectiveCount_pos _ Hd). lia.
Qed.

Lemma itemsFields_length items :
  Forall (fun it => wfItem it = true) items ->
  len (itemsFields items) = sumZ (map effectiveCount items).
Proof.
  induction 1 as [|it items H _ IH]; [reflexivity|].
  unfold itemsFields, len in *. cbn [flat_map map].
  rewrite sumZ_cons, length_app, Nat2Z.inj_add, IH. f_equal.
  unfold itemFields. rewrite repeat_length.
  apply wfItem_inv in H as (d & _ & Hd & _).
  pose proof (effectiveCount_pos _ Hd). lia.
Qed.

Lemma parseStep_inv st b st' :
  parseInv st -> parseStep st b = Ok st' -> parseInv st'.
Proof.
  intros [Hfd Hprev]. unfold parseStep.
  destruct (descCharMap b) as [d|] eqn:E.
  - intros [= <-]. pose proof (descCharMap_valid _ _ E) as (Hd & _).
    split; cbn; [|congruence].
    apply Forall_app. split; [|repeat constructor; exact Hd].
    destruct (Z.eqb_spec (repeatNum st) 0) as [|Hne]; [exact Hfd|].
    cbn. unfold appendTimes. apply Forall_app. split; [exact Hfd|].
    apply List.Forall_forall. intros t Ht. apply repeat_spec in Ht. subst.
    intros Hno. apply Hne, Hprev, Hno.
  - destruct (isDigit b); [|discriminate].
    destruct (isNoType (typeId (prevDesc st))) eqn:Hn; [discriminate|].
    intros [= <-]. split; cbn; [exact Hfd|].
    intros Hno. rewrite Hno in Hn. discriminate.
Qed.

Lemma parseLoop_inv s : forall st st',
  parseInv st -> parseLoop st s = Ok st' -> parseInv st'.
Proof.
  induction s as [|b s IH]; intros st st' Hinv; cbn.
  - intros [= <-]. exact Hinv.
  - destruct (parseStep st b) as [st1|] eqn:E; [|discriminate]. cbn.
    apply IH. eapply parseStep_inv; eauto.
Qed.

Lemma parse_no_noType binFmt fd sz :
  parseBinaryFmtSpec binFmt = Ok (fd, sz) -> Forall (fun t => t <> noType) fd.
Proof.
  unfold parseBinaryFmtSpec.
  destruct (parseLoop parseInit binFmt) as [st|] eqn:E; [|discriminate].
  cbn. intros [= <- _].
  assert (Hinv : parseInv st).
  { eapply parseLoop_inv; [|exact E]. split; [constructor|reflexivity]. }
  destruct Hinv as [Hfd Hprev]. unfold appendTimes.
  apply Forall_app. split; [exact Hfd|].
  apply List.Forall_forall. intros t Ht Hno.
  pose proof (repeat_spec _ _ _ Ht) as ->. rewrite (Hprev Hno) in Ht.
  change (Z.to_nat (Int.sub 0 1)) with 0%nat in Ht. destruct Ht.
Qed.

Lemma parseLoop_zeros zeros : forall st rest,
  Forall (fun c => c = "0"%char) zeros ->
  repeatNum st = 0 -> typeId (prevDesc st) <> noType ->
  parseLoop st (zeros ++ rest) = parseLoop st rest.
Proof.
  induction zeros as [|c zeros IH]; intros st rest Hz Hr Hp; [reflexivity|].
  inversion Hz as [|? ? -> Hz']; subst. cbn [app parseLoop].
  rewrite parseStep_digit by (reflexivity || assumption). rewrite Hr.
  change (Int.wrap (0 * 10 + digitVal "0")) with 0. cbn [bind].
  rewrite IH; [|assumption|reflexivity|exact Hp]. destruct st; cbn in *; subst. reflexivity.
Qed.

(** C2, as amended: for every layout specifier made of recognized type
    letters, each with an optional run of decimal digits, compilation
    succeeds; the record size is the sum of the byte widths of the
    returned fields; the number of fields is the sum of the repeat counts,
    where a bare letter and a letter with a count of 0 both count 1.  The
    counts and the record size are taken to fit in an [int]. *)
Theorem layout_fields_and_size (items : list layoutItem) :
  Forall (fun it => wfItem it = true) items ->
  Forall (fun it : layoutItem => decimal it.2 <= Int.max) items ->
  itemsSize items <= Int.max ->
  exists fd sz,
    parseBinaryFmtSpec (renderItems items) = Ok (fd, sz) /\
    fd = itemsFields items /\
    sz = sumZ (map byteWidth fd) /\
    len fd = sumZ (map effectiveCount items).
Proof.
  intros Hwf Hcnt Hmax.
  destruct (parseLoop_items items parseInit Hwf Hcnt) as (st & Hrun & Hfin).
  - cbn. lia.
  - cbn. lia.
  - exists (itemsFields items), (itemsSize items).
    unfold parseBinaryFmtSpec. rewrite Hrun. cbn [bind]. rewrite Hfin.
    repeat split.
    + symmetry. apply itemsFields_widths, Hwf.
    + apply itemsFields_length, Hwf.
Qed.

Lemma layout_fields_and_size_witness :
  exists fd sz,
    parseBinaryFmtSpec (renderItems items_sL2c) = Ok (fd, sz) /\
    fd = itemsFields items_sL2c /\
    sz = sumZ (map byteWidth fd) /\
    len fd = sumZ (map effectiveCount items_sL2c).
Proof.
  apply layout_fields_and_size.
  - repeat constructor.
  - repeat constructor; vm_compute; discriminate.
  - vm_compute; discriminate.
Defined.

(** C2 as stated fails on a count of 0: "C0" compiles to one field, while
    the declared repeat counts sum to 0. *)
Lemma layout_count_zero_counterexample :
  Forall (fun it => wfItem it = true) [("C"%char, "0" : gostring)] /\
  renderItems [("C"%char, "0" : gostring)] = ("C0" : gostring) /\
  exists fd sz,
    parseBinaryFmtSpec "C0" = Ok (fd, sz) /\
    len fd <> sumZ (map declaredCount [("C"%char, "0" : gostring)]).
Proof.
  split; [repeat constructor|]. split; [reflexivity|].
  exists [U8], 1. split; [reflexivity|]. vm_compute. discriminate.
Qed.

(** C4, as amended: "sL2c" compiles to the fields int16, uint32, uint32,
    int8 with record size 11; in the table a lower-case letter is signed,
    an upper-case letter unsigned, and c, s, l, q are 1, 2, 4, 8 bytes in
    either case. *)
Theorem compile_sL2c :
  parseBinaryFmtSpec "sL2c" = Ok ([I16; U32; U32; I8], 11) /\
  Forall (fun '(lower, upper, w) =>
            exists tl tu,
              descCharMap lower = Some (mkDesc tl w) /\
              descCharMap upper = Some (mkDesc tu w) /\
              signed tl = true /\ signed tu = false /\
              byteWidth tl = w /\ byteWidth tu = w)
         [("c"%char, "C"%char, 1); ("s"%char, "S"%char, 2);
          ("l"%char, "L"%char, 4); ("q"%char, "Q"%char, 8)].
Proof.
  split; [reflexivity|].
  repeat constructor; eexists _, _; repeat split.
Qed.

(** C4 as stated names the two middle fields Int32; the upper-case L
    gives the unsigned type. *)
Lemma compile_sL2c_counterexample :
  parseBinaryFmtSpec "sL2c" <> Ok ([I16; I32; I32; I8], 11).
Proof. vm_compute. discriminate. Qed.

(** C9: a repeat count of 0 after a type letter behaves as the bare
    letter.  Whatever comes before and after, the specifier with the
    zeros compiles to the same result as the one without them; the letter
    alone with its zeros compiles to its one field, and the record size is
    the width of that field. *)
Theorem zero_count_is_bare_letter (s1 : gostring) (l : ascii) (d : intDesc)
    (zeros s2 : gostring) :
  descCharMap l = Some d ->
  Forall (fun c => c = "0"%char) zeros ->
  parseBinaryFmtSpec (s1 ++ l :: zeros ++ s2) = parseBinaryFmtSpec (s1 ++ l :: s2) /\
  parseBinaryFmtSpec (l :: zeros) = Ok ([typeId d], byteWidth (typeId d)).
Proof.
  intros E Hz.
  pose proof (descCharMap_valid _ _ E) as (Hd & Hw & Hs & _).
  assert (Hstep : forall st rest,
             parseLoop st (l :: zeros ++ rest) = parseLoop st (l :: rest)).
  { intros st rest. cbn [parseLoop]. rewrite (parseStep_letter _ _ _ E).
    cbn [bind]. apply parseLoop_zeros; auto. }
  split.
  - unfold parseBinaryFmtSpec. rewrite !parseLoop_app.
    destruct (parseLoop parseInit s1) as [st|]; cbn [bind]; [|reflexivity].
    rewrite Hstep. reflexivity.
  - unfold parseBinaryFmtSpec.
    rewrite <- (app_nil_r zeros), Hstep. cbn [parseLoop].
    rewrite (parseStep_letter _ _ _ E). cbn.
    rewrite add_small by (unfold Int.min, Int.max; lia).
    rewrite <- Hw. reflexivity.
Qed.

Lemma zero_count_is_bare_letter_witness :
  parseBinaryFmtSpec ("s" ++ "C"%char :: "0" ++ "l2")
  = parseBinaryFmtSpec ("s" ++ "C"%char :: "l2") /\
  parseBinaryFmtSpec ("C"%char :: "0") = Ok ([U8], 1).
Proof.
  apply (zero_count_is_bare_letter "s" "C" (mkDesc U8 1) "0" "l2").
  - reflexivity.
  - repeat constructor.
Defined.

End Parse.

(** ** The regular expression engine *)

Section Regex.

Context {R : Type}.

(** A greedy loop takes the whole run when what follows succeeds. *)
Lemma starLoop_greedy p l : forall s pos (k : gostring -> nat -> option R) res,
  forallb p l = true -> stops p s ->
  k s (pos + length l)%nat = Some res ->
  starLoop p (l ++ s) pos k = Some res.
Proof.
  induction l as [|c l IH]; intros s pos k res Hl Hs Hk.
  - cbn in *. rewrite Nat.add_0_r in Hk.
    destruct s as [|c s]; cbn; [exact Hk|]. cbn in Hs. rewrite Hs. exact Hk.
  - cbn in Hl. apply andb_prop in Hl as [Hc Hl]. cbn. rewrite Hc.
    rewrite (IH s (S pos) k res); auto.
    rewrite <- Hk. f_equal. cbn. lia.
Qed.

(** Wherever the loop hands over, it is at a suffix of the text. *)
Lemma starLoop_inv p s : forall pos (k : gostring -> nat -> option R) res,
  starLoop p s pos k = Some res ->
  exists l s', s = l ++ s' /\ k s' (pos + length l)%nat = Some res.
Proof.
  induction s as [|c s IH]; intros pos k res H; cbn in H.
  - exists [], []. rewrite Nat.add_0_r. auto.
  - destruct (p c).
    + destruct (starLoop p s (S pos) k) as [r|] eqn:E.
      * apply IH in E as (l & s' & -> & Hk). exists (c :: l), s'.
        split; [reflexivity|]. injection H as <-. rewrite <- Hk. f_equal.
        cbn. lia.
      * exists [], (c :: s). rewrite Nat.add_0_r. auto.
    + exists [], (c :: s). rewrite Nat.add_0_r. auto.
Qed.

Lemma exec_inv r : forall s pos cs (k : gostring -> nat -> captures -> option R) res,
  exec r s pos cs k = Some res ->
  exists l s' cs', s = l ++ s' /\ k s' (pos + length l)%nat cs' = Some res.
Proof.
  induction r as [p|p| |r1 IH1 r2 IH2|r1 IH1 r2 IH2|i r IH];
    intros s pos cs k res H; cbn in H.
  - destruct s as [|c s]; [discriminate|]. destruct (p c); [|discriminate].
    exists [c], s, cs. split; [reflexivity|]. rewrite <- H. f_equal. cbn. lia.
  - apply starLoop_inv in H as (l & s' & -> & Hk). eauto.
  - destruct (pos =? 0)%nat; [|discriminate].
    exists [], s, cs. rewrite Nat.add_0_r. auto.
  - apply IH1 in H as (l1 & s1 & cs1 & -> & H).
    apply IH2 in H as (l2 & s2 & cs2 & -> & H).
    exists (l1 ++ l2), s2, cs2. rewrite <- app_assoc. split; [reflexivity|].
    rewrite <- H. f_equal. rewrite length_app. lia.
  - destruct (exec r1 s pos cs k) as [m|] eqn:E.
    + injection H as <-. eauto.
    + eauto.
  - apply IH in H as (l & s' & cs' & -> & H). eauto.
Qed.

Lemma starLoop_sound p s : forall pos (k : gostring -> nat -> option R) res,
  starLoop p s pos k = Some res ->
  exists l s', s = l ++ s' /\ forallb p l = true /\
               k s' (pos + length l)%nat = Some res.
Proof.
  induction s as [|c s IH]; intros pos k res H; cbn in H.
  - exists [], []. rewrite Nat.add_0_r. auto.
  - destruct (p c) eqn:Hc.
    + destruct (starLoop p s (S pos) k) as [r|] eqn:E.
      * apply IH in E as (l & s' & -> & Hl & Hk). exists (c :: l), s'.
        cbn. rewrite Hc, Hl. repeat split. injection H as <-.
        rewrite <- Hk. f_equal. lia.
      * exists [], (c :: s). rewrite Nat.add_0_r. auto.
    + exists [], (c :: s). rewrite Nat.add_0_r. auto.
Qed.

(** What [exec] hands to its continuation is what is left after a
    match of the pattern. *)
Lemma exec_sound r : forall s pos cs (k : gostring -> nat -> captures -> option R) res,
  exec r s pos cs k = Some res ->
  exists l s' cs',
    s = l ++ s' /\ matched r pos l cs cs' /\
    k s' (pos + length l)%nat cs' = Some res.
Proof.
  induction r as [p|p| |r1 IH1 r2 IH2|r1 IH1 r2 IH2|i r IH];
    intros s pos cs k res H; cbn in H.
  - destruct s as [|c s]; [discriminate|]. destruct (p c) eqn:Hc; [|discriminate].
    exists [c], s, cs. cbn [length]. replace (pos + 1)%nat with (S pos) by lia.
    repeat split; [now constructor|exact H].
  - apply starLoop_sound in H as (l & s' & -> & Hl & Hk).
    exists l, s', cs. repeat split; [now constructor|exact Hk].
  - destruct (Nat.eqb_spec pos 0) as [->|]; [|discriminate].
    exists [], s, cs. repeat split; [constructor|exact H].
  - apply IH1 in H as (l1 & s1 & cs1 & -> & M1 & H).
    apply IH2 in H as (l2 & s2 & cs2 & -> & M2 & H).
    exists (l1 ++ l2), s2, cs2. rewrite <- app_assoc, length_app, Nat.add_assoc.
    repeat split; [econstructor; eassumption|exact H].
  - destruct (exec r1 s pos cs k) as [m|] eqn:E.
    + injection H as <-. apply IH1 in E as (l & s' & cs' & -> & M & Hk).
      exists l, s', cs'. repeat split; [now apply M_AltL|exact Hk].
    + apply IH2 in H as (l & s' & cs' & -> & M & Hk).
      exists l, s', cs'. repeat split; [now apply M_AltR|exact Hk].
  - apply IH in H as (l & s' & cs' & -> & M & H).
    exists l, s', (<[i := Some (pos, (pos + length l)%nat)]> cs').
    repeat split; [now constructor|exact H].
Qed.

Lemma exec_Seq r1 r2 s pos cs (k : gostring -> nat -> captures -> option R) :
  exec (Seq r1 r2) s pos cs k
  = exec r1 s pos cs (fun s' pos' cs' => exec r2 s' pos' cs' k).
Proof. reflexivity. Qed.

End Regex.

Lemma capsWithin_mono b b' cs : (b <= b')%nat -> capsWithin b cs -> capsWithin b' cs.
Proof.
  intros Hb H. unfold capsWithin. eapply Forall_impl; [exact H|].
  intros [[x y]|]; [lia|auto].
Qed.

(** [exec] keeps the groups inside the text it has passed. *)
Lemma exec_inv_caps {R} r : forall s pos cs
    (k : gostring -> nat -> captures -> option R) res,
  capsWithin pos cs ->
  exec r s pos cs k = Some res ->
  exists l s' cs',
    s = l ++ s' /\ capsWithin (pos + length l) cs' /\
    k s' (pos + length l)%nat cs' = Some res.
Proof.
  induction r as [p|p| |r1 IH1 r2 IH2|r1 IH1 r2 IH2|i r IH];
    intros s pos cs k res Hcs H; cbn in H.
  - destruct s as [|c s]; [discriminate|]. destruct (p c); [|discriminate].
    exists [c], s, cs. cbn [length]. replace (pos + 1)%nat with (S pos) by lia.
    repeat split; [|exact H]. eapply capsWithin_mono; [|exact Hcs]. lia.
  - apply starLoop_inv in H as (l & s' & -> & Hk).
    exists l, s', cs. repeat split; [|exact Hk].
    eapply capsWithin_mono; [|exact Hcs]. lia.
  - destruct (pos =? 0)%nat; [|discriminate].
    exists [], s, cs. cbn [length]. rewrite Nat.add_0_r. auto.
  - apply IH1 in H as (l1 & s1 & cs1 & -> & Hc1 & H); [|exact Hcs].
    apply IH2 in H as (l2 & s2 & cs2 & -> & Hc2 & H); [|exact Hc1].
    exists (l1 ++ l2), s2, cs2. rewrite <- app_assoc, length_app, Nat.add_assoc.
    auto.
  - destruct (exec r1 s pos cs k) as [m|] eqn:E.
    + injection H as <-. eauto.
    + eauto.
  - apply IH in H as (l & s' & cs' & -> & Hc & H); [|exact Hcs].
    exists l, s', (<[i := Some (pos, (pos + length l)%nat)]> cs').
    repeat split; [|exact H]. apply Forall_insert; [exact Hc|lia].
Qed.

Lemma group_within bound m i :
  capsWithin bound (mgroups m) -> ((group m i).1 <= (group m i).2 <= bound)%nat.
Proof.
  unfold group, capsWithin. intros H.
  destruct (mgroups m !! i) as [[[a b]|]|] eqn:E; cbn; try lia.
  eapply Forall_lookup_1 in E; [|exact H]. exact E.
Qed.

Lemma matchAt_sliceable re ngroups s pos m :
  matchAt re ngroups s pos = Some m -> sliceable (pos + length s) m.
Proof.
  unfold matchAt. intros H.
  apply exec_inv_caps in H as (l & s' & cs' & -> & Hc & [= <-]).
  - rewrite length_app. split; cbn [mstart mend]; [lia|].
    intros i. pose proof (group_within _ (mkMatch pos (pos + length l) cs') i Hc).
    lia.
  - apply Forall_replicate. exact I.
Qed.

Lemma matchAt_bounds re ngroups s pos m :
  matchAt re ngroups s pos = Some m ->
  mstart m = pos /\ exists l s', s = l ++ s' /\ mend m = (pos + length l)%nat.
Proof.
  unfold matchAt. intros H.
  apply exec_inv in H as (l & s' & cs' & -> & [= <-]). cbn. eauto.
Qed.

Section FindAll.

Variable re : regex.
Variable ngroups : nat.

Lemma findAllFrom_skip s : forall pos skip,
  (skip <= length s)%nat ->
  findAllFrom re ngroups s pos skip
  = findAllFrom re ngroups (drop skip s) (pos + skip) 0.
Proof.
  induction s as [|c s IH]; intros pos skip Hk.
  - cbn in Hk. replace skip with 0%nat by lia. rewrite Nat.add_0_r. reflexivity.
  - destruct skip as [|skip]; [rewrite Nat.add_0_r; reflexivity|].
    cbn [findAllFrom drop]. rewrite IH by (cbn in Hk; lia).
    f_equal. lia.
Qed.

Lemma findAllFrom_miss c s pos :
  matchAt re ngroups (c :: s) pos = None ->
  findAllFrom re ngroups (c :: s) pos 0 = findAllFrom re ngroups s (S pos) 0.
Proof. intros H. cbn [findAllFrom]. rewrite H. reflexivity. Qed.

Lemma findAllFrom_hit s pos m n :
  matchAt re ngroups s pos = Some m ->
  mend m = (pos + n)%nat -> (1 <= n <= length s)%nat ->
  findAllFrom re ngroups s pos 0
  = m :: findAllFrom re ngroups (drop n s) (pos + n) 0.
Proof.
  intros H He Hn. destruct s as [|c s]; [cbn in Hn; lia|].
  cbn [findAllFrom]. rewrite H. f_equal.
  rewrite findAllFrom_skip by (cbn in Hn; lia).
  replace (mend m - pos - 1)%nat with (n - 1)%nat by lia.
  destruct n as [|n]; [lia|]. cbn [drop].
  replace (S n - 1)%nat with n by lia. f_equal. lia.
Qed.

Lemma ordered_weaken mat prev prev' :
  (prev' <= prev)%nat -> ordered prev mat -> ordered prev' mat.
Proof. destruct mat; cbn; [auto|]. intros ? (? & ? & ?). repeat split; auto; lia. Qed.

Lemma findAllFrom_ordered s : forall pos skip,
  ordered (pos + skip) (findAllFrom re ngroups s pos skip).
Proof.
  induction s as [|c s IH]; intros pos skip.
  - destruct skip; cbn; [|exact I].
    destruct (matchAt re ngroups [] pos) as [m|] eqn:E; cbn; [|exact I].
    apply matchAt_bounds in E as (-> & l & s' & _ & ->). lia.
  - destruct skip as [|skip]; cbn [findAllFrom].
    + destruct (matchAt re ngroups (c :: s) pos) as [m|] eqn:E.
      * apply matchAt_bounds in E as (Hs & l & s' & _ & He). cbn [ordered].
        repeat split; try lia.
        eapply ordered_weaken; [|apply IH]. lia.
      * eapply ordered_weaken; [|apply IH]. lia.
    + eapply ordered_weaken; [|apply IH]. lia.
Qed.

Lemma findAll_ordered s : ordered 0 (findAll re ngroups s).
Proof. apply (findAllFrom_ordered s 0 0). Qed.

Lemma findAllFrom_sliceable s : forall pos skip,
  Forall (sliceable (pos + length s)) (findAllFrom re ngroups s pos skip).
Proof.
  induction s as [|c s IH]; intros pos skip.
  - destruct skip; cbn [findAllFrom]; [|constructor].
    destruct (matchAt re ngroups [] pos) as [m|] eqn:E; [|constructor].
    apply matchAt_sliceable in E. constructor; [exact E|constructor].
  - assert (Hrest : forall k, Forall (sliceable (pos + length (c :: s)))
                                (findAllFrom re ngroups s (S pos) k)).
    { intros k. cbn [length]. replace (pos + S (length s))%nat
        with (S pos + length s)%nat by lia. apply IH. }
    destruct skip as [|skip]; cbn [findAllFrom]; [|apply Hrest].
    destruct (matchAt re ngroups (c :: s) pos) as [m|] eqn:E; [|apply Hrest].
    constructor; [|apply Hrest]. now apply matchAt_sliceable in E.
Qed.

(** The indices that [FindAll] returns for a text are in order and are
    slice bounds of that text, so no slice of [processPrintFmt] that is
    taken at them is out of range. *)
Lemma findAll_sliceable s :
  ordered 0 (findAll re ngroups s) /\
  Forall (sliceable (length s)) (findAll re ngroups s).
Proof. split; [apply findAll_ordered|apply (findAllFrom_sliceable s 0 0)]. Qed.



End FindAll.

(** ** The template expander *)

Section Expand.

Lemma substr_glue (T : gostring) a b c :
  (a <= b <= c)%nat ->
  substr T a b ++ substr T b c ++ drop c T = drop a T.
Proof.
  intros H. unfold substr.
  replace (drop b T) with (drop (b - a) (drop a T)) by (rewrite drop_drop; f_equal; lia).
  replace (drop c T) with (drop (c - b) (drop (b - a) (drop a T)))
    by (rewrite !drop_drop; f_equal; lia).
  rewrite (take_drop (c - b)). apply take_drop.
Qed.

Lemma processMatch_escaped T buf prev v :
  escaped T v = true ->
  processMatch T (buf, prev) v
  = Ok ((buf ++ substr T prev (mstart v)) ++ substr T (mstart v) (mend v), mend v).
Proof. unfold processMatch, escaped. intros ->. reflexivity. Qed.

Lemma processMatches_escaped T mat : forall buf prev,
  ordered prev mat -> Forall (fun m => escaped T m = true) mat ->
  exists buf' prev',
    processMatches T (buf, prev) mat = Ok (buf', prev') /\
    buf' ++ drop prev' T = buf ++ drop prev T.
Proof.
  induction mat as [|m mat IH]; intros buf prev Hord Hesc.
  - exists buf, prev. split; reflexivity.
  - destruct Hord as (H1 & H2 & Hord). inversion Hesc as [|? ? Hm Hesc']; subst.
    cbn [processMatches]. rewrite processMatch_escaped by exact Hm. cbn [bind].
    destruct (IH ((buf ++ substr T prev (mstart m)) ++ substr T (mstart m) (mend m))
                (mend m) Hord Hesc') as (buf' & prev' & Hrun & Heq).
    exists buf', prev'. split; [exact Hrun|].
    rewrite Heq, <- !app_assoc. f_equal. apply substr_glue. lia.
Qed.

Lemma processPrintFmt_escaped (T : gostring) :
  Forall (fun m => escaped T m = true) (findAll printSpecPat 3 T) ->
  processPrintFmt T = Ok T.
Proof.
  intros Hesc. unfold processPrintFmt.
  destruct (processMatches_escaped T (findAll printSpecPat 3 T) [] 0%nat
              (findAll_ordered _ _ _) Hesc) as (buf' & prev' & Hrun & Heq).
  destruct (findAll printSpecPat 3 T) as [|m mat]; [reflexivity|].
  rewrite Hrun. cbn. rewrite Heq. reflexivity.
Qed.

End Expand.

Section Shorthand.

Lemma inSet_cdxo_pct c : inSet "cdxo" c = true -> inSet "cdxo%" c = true.
Proof.
  unfold inSet. cbn. intros H.
  repeat (apply orb_prop in H as [H|H]; [rewrite H; rewrite ?orb_true_r; reflexivity|]).
  discriminate.
Qed.

Lemma printSpec_miss c s pos :
  isByte "%" c = false -> matchAt printSpecPat 3 (c :: s) pos = None.
Proof. intros H. unfold matchAt. cbn. rewrite H. reflexivity. Qed.

Lemma printSpec_miss_nil pos : matchAt printSpecPat 3 [] pos = None.
Proof. reflexivity. Qed.

(** The match of the repeat pattern at a shorthand. *)
Lemma printSpec_hit mods letter sep digits rest pos :
  forallb (fun c => negb (inSet "cdxo%" c)) mods = true ->
  inSet "cdxo" letter = true ->
  forallb (fun c => negb (isDigit c)) sep = true ->
  digits <> [] -> forallb isDigit digits = true ->
  let p1 := (pos + length (conversion mods letter))%nat in
  let p2 := (p1 + length sep)%nat in
  let p3 := (p2 + length digits)%nat in
  matchAt printSpecPat 3
    (conversion mods letter ++ sep ++ digits ++ "#"%char :: rest) pos
  = Some (mkMatch pos (S p3)
            [None; Some (pos, p1); Some (p1, p2); Some (p2, p3)]).
Proof.
  intros Hmods Hletter Hsep Hne Hdigits p1 p2 p3.
  destruct digits as [|d ds]; [congruence|]. cbn in Hdigits.
  apply andb_prop in Hdigits as [Hd Hds].
  unfold matchAt, printSpecPat, specStr, Plus, conversion. cbn [exec app].
  change (isByte "%" "%") with true. cbn match. rewrite <- !app_assoc.
  apply starLoop_greedy; [exact Hmods| |].
  { cbn [app]. unfold stops. rewrite (inSet_cdxo_pct _ Hletter). reflexivity. }
  cbn [app]. rewrite Hletter.
  apply starLoop_greedy; [exact Hsep| |].
  { unfold stops. rewrite Hd. reflexivity. }
  cbn [app]. rewrite Hd.
  apply starLoop_greedy; [exact Hds|reflexivity|].
  change (isByte "#" "#") with true. cbn match. cbn [replicate].
  subst p3 p2 p1. unfold conversion. cbn [length]. rewrite ?length_app. cbn [length].
  replace (S (S pos + length mods)) with (pos + S (length mods + 1))%nat by lia.
  set (q := (pos + S (length mods + 1) + length sep)%nat).
  replace (S q + length ds)%nat with (q + S (length ds))%nat by lia.
  reflexivity.
Qed.


Lemma concat_repeat_shift (rep sep : gostring) k :
  concat (repeat (rep ++ sep) (S k))
  = rep ++ concat (repeat (sep ++ rep) k) ++ sep.
Proof.
  induction k as [|k IH].
  - cbn. now rewrite !app_nil_r.
  - change (concat (repeat (rep ++ sep) (S (S k))))
      with ((rep ++ sep) ++ concat (repeat (rep ++ sep) (S k))).
    rewrite IH. cbn [repeat concat]. now rewrite <- !app_assoc.
Qed.

Lemma joinWith_repeat (rep sep : gostring) k :
  joinWith sep (repeat rep (S k)) = rep ++ concat (repeat (sep ++ rep) k).
Proof. cbn [repeat joinWith]. now rewrite map_repeat. Qed.

Lemma len_app {A} (l1 l2 : list A) : len (l1 ++ l2) = len l1 + len l2.
Proof. unfold len. rewrite length_app. lia. Qed.

Lemma len_nonneg {A} (l : list A) : 0 <= len l.
Proof. unfold len. lia. Qed.

(** [repeatWithSep] gives the copies joined by the separator, for a
    count of at least 1 whose output fits. *)
Lemma repeatWithSep_join (rep sep : gostring) n :
  1 <= n -> (len rep + len sep) * n <= Int.max ->
  repeatWithSep rep sep n = Ok (joinWith sep (repeat rep (Z.to_nat n))).
Proof.
  intros Hn Hmax. unfold repeatWithSep, stringsRepeat.
  destruct (Z.ltb_spec n 0) as [|_]; [lia|].
  rewrite len_app.
  destruct (Z.ltb_spec Int.max ((len rep + len sep) * n)) as [|_]; [lia|].
  cbn [bind]. destruct (Z.to_nat n) as [|k] eqn:Ek; [lia|].
  rewrite concat_repeat_shift, joinWith_repeat.
  set (J := rep ++ concat (repeat (sep ++ rep) k)).
  rewrite app_assoc. fold J. unfold sliceTo. rewrite len_app.
  pose proof (len_nonneg J). pose proof (len_nonneg sep).
  destruct (Z.ltb_spec (len J + len sep - len sep) 0) as [|_]; [lia|].
  destruct (Z.ltb_spec (len J + len sep) (len J + len sep - len sep)) as [|_]; [lia|].
  cbn [orb]. f_equal.
  replace (Z.to_nat (len J + len sep - len sep)) with (length J) by (unfold len; lia).
  apply take_app_length.
Qed.

Lemma strconvAtoi_digits (s : gostring) :
  s <> [] -> forallb isDigit s = true -> decimal s <= Int.max ->
  strconvAtoi s = Some (decimal s).
Proof.
  intros Hne Hd Hmax. unfold strconvAtoi. destruct s; [congruence|].
  rewrite Hd. destruct (Z.leb_spec (decimal (a :: s)) Int.max); [reflexivity|lia].
Qed.

Lemma substr_middle (A B C : gostring) :
  substr (A ++ B ++ C) (length A) (length A + length B) = B.
Proof.
  unfold substr. rewrite drop_app_length.
  replace (length A + length B - length A)%nat with (length B) by lia.
  apply take_app_length.
Qed.

Lemma substr_prefix (P X : gostring) prev :
  (prev <= length P)%nat -> substr (P ++ X) prev (length P) = drop prev P.
Proof.
  intros H. unfold substr. rewrite drop_app_le by exact H.
  rewrite take_app_le by (rewrite length_drop; lia).
  apply take_ge. rewrite length_drop. lia.
Qed.

Lemma lit_skip t : forall R pos,
  forallb (fun c => negb (isByte "%" c)) t = true ->
  findAllFrom printSpecPat 3 (t ++ R) pos 0
  = findAllFrom printSpecPat 3 R (pos + length t) 0.
Proof.
  induction t as [|c t IH]; intros R pos Ht.
  - cbn. now rewrite Nat.add_0_r.
  - cbn in Ht. apply andb_prop in Ht as [Hc Ht]. cbn [app].
    rewrite findAllFrom_miss by (apply printSpec_miss; now apply negb_true_iff).
    rewrite IH by exact Ht. f_equal. cbn. lia.
Qed.

Lemma last_lit (P t : gostring) :
  forallb (fun c => negb (isByte "%" c)) t = true ->
  last P <> Some "%"%char -> last (P ++ t) <> Some "%"%char.
Proof.
  intros Ht HP. rewrite last_app.
  destruct (last t) as [c|] eqn:E; [|exact HP].
  apply last_Some in E as [t' ->]. rewrite forallb_app in Ht.
  apply andb_prop in Ht as [_ Ht]. cbn in Ht. rewrite andb_true_r in Ht.
  intros [= ->]. discriminate.
Qed.

Lemma not_escaped (P X : gostring) m :
  mstart m = length P -> last P <> Some "%"%char -> escaped (P ++ X) m = false.
Proof.
  intros Hs HP. unfold escaped. rewrite Hs.
  destruct P as [|c P] using rev_ind; [reflexivity|].
  rewrite length_app. cbn [length].
  replace (length P + 1 - 1)%nat with (length P) by lia.
  rewrite <- app_assoc. change ([c] ++ X) with (c :: X).
  rewrite list_lookup_middle by reflexivity.
  rewrite last_snoc in HP. unfold isByte.
  destruct (Ascii.eqb_spec c "%"); [congruence|]. apply andb_false_r.
Qed.

Lemma processMatch_unescaped T buf prev v :
  escaped T v = false ->
  processMatch T (buf, prev) v =
  let buf := buf ++ substr T prev (mstart v) in
  let spec := substr T (group v 1).1 (group v 1).2 in
  let sep := separatorOf (substr T (group v 2).1 (group v 2).2) in
  let cntStr := substr T (group v 3).1 (group v 3).2 in
  match strconvAtoi cntStr with
  | None => Panic (PanicAtoi cntStr)
  | Some cnt => try e <- repeatWithSep spec sep cnt in Ok (buf ++ e, mend v)
  end.
Proof. unfold processMatch, escaped. intros ->. reflexivity. Qed.

Lemma processMatch_expand T buf prev v :
  escaped T v = false ->
  processMatch T (buf, prev) v =
  match strconvAtoi (digitsOf T v) with
  | None => Panic (PanicAtoi (digitsOf T v))
  | Some cnt =>
      try e <- repeatWithSep (convOf T v) (separatorOf (sepOf T v)) cnt in
      Ok ((buf ++ substr T prev (mstart v)) ++ e, mend v)
  end.
Proof. unfold processMatch, escaped. intros ->. reflexivity. Qed.

(** The groups of the match at a shorthand that follows the text [P]
    are its conversion, its separator and its digits. *)
Lemma pieces_of (P R : gostring) mods letter sep digits :
  let T := P ++ conversion mods letter ++ sep ++ digits ++ "#"%char :: R in
  let p1 := (length P + length (conversion mods letter))%nat in
  let p2 := (p1 + length sep)%nat in
  let p3 := (p2 + length digits)%nat in
  let m := mkMatch (length P) (S p3)
             [None; Some (length P, p1); Some (p1, p2); Some (p2, p3)] in
  convOf T m = conversion mods letter /\ sepOf T m = sep /\ digitsOf T m = digits.
Proof.
  intros T p1 p2 p3 m. set (conv := conversion mods letter) in *.
  assert (E2 : T = (P ++ conv) ++ sep ++ (digits ++ "#"%char :: R)).
  { subst T. now rewrite <- !app_assoc. }
  assert (E3 : T = ((P ++ conv) ++ sep) ++ digits ++ ("#"%char :: R)).
  { rewrite E2. now rewrite <- !app_assoc. }
  assert (L1 : p1 = length (P ++ conv)) by (subst p1; now rewrite length_app).
  assert (L2 : p2 = length ((P ++ conv) ++ sep))
    by (subst p2; now rewrite L1, <- length_app).
  unfold convOf, sepOf, digitsOf.
  cbn [m group mgroups lookup list_lookup fst snd]. repeat split.
  - subst p1 T. apply substr_middle.
  - rewrite E2, L1. subst p2. rewrite L1. apply substr_middle.
  - rewrite E3, L2. subst p3. rewrite L2. apply substr_middle.
Qed.



Lemma conversion_len mods letter : 2 <= len (conversion mods letter).
Proof. unfold conversion, len. cbn [length]. rewrite length_app. cbn. lia. Qed.





Lemma wfSegment_rep mods letter sep digits :
  wfSegment (Rep mods letter sep digits) = true ->
  forallb (fun c => negb (inSet "cdxo%" c)) mods = true /\
  inSet "cdxo" letter = true /\
  forallb (fun c => negb (isDigit c)) sep = true /\
  digits <> [] /\ forallb isDigit digits = true /\
  1 <= decimal digits /\
  (len (conversion mods letter) + len (separatorOf sep)) * decimal digits
    <= Int.max.
Proof.
  cbn [wfSegment]. rewrite !andb_true_iff.
  intros ((((((H1 & H2) & H3) & H4) & H5) & H6) & H7).
  apply Z.leb_le in H6, H7. repeat split; auto.
  intros ->. discriminate.
Qed.

(** One iteration of the loop of [processPrintFmt] at a shorthand that
    follows the text [P]. *)
Lemma processMatch_rep (P R buf : gostring) prev mods letter sep digits :
  wfSegment (Rep mods letter sep digits) = true ->
  (prev <= length P)%nat -> last P <> Some "%"%char ->
  let occ := renderSegment (Rep mods letter sep digits) in
  let p1 := (length P + length (conversion mods letter))%nat in
  let p2 := (p1 + length sep)%nat in
  let p3 := (p2 + length digits)%nat in
  processMatch (P ++ occ ++ R) (buf, prev)
    (mkMatch (length P) (S p3)
       [None; Some (length P, p1); Some (p1, p2); Some (p2, p3)])
  = Ok (buf ++ drop prev P ++ expandSegment (Rep mods letter sep digits),
        (length P + length occ)%nat).
Proof.
  intros (Hm & Hl & Hs & Hne & Hd & Hn & Hmax)%wfSegment_rep Hprev HP
         occ p1 p2 p3.
  set (conv := conversion mods letter) in *.
  set (T := P ++ occ ++ R).
  assert (E1 : T = P ++ conv ++ (sep ++ digits ++ "#"%char :: R)).
  { subst T occ. cbn [renderSegment]. fold conv. now rewrite <- !app_assoc. }
  assert (E2 : T = (P ++ conv) ++ sep ++ (digits ++ "#"%char :: R)).
  { rewrite E1. now rewrite <- !app_assoc. }
  assert (E3 : T = ((P ++ conv) ++ sep) ++ digits ++ ("#"%char :: R)).
  { rewrite E2. now rewrite <- !app_assoc. }
  assert (L1 : p1 = length (P ++ conv)) by (subst p1; now rewrite length_app).
  assert (L2 : p2 = length ((P ++ conv) ++ sep))
    by (subst p2; now rewrite L1, <- length_app).
  rewrite processMatch_unescaped by (rewrite E1; now apply not_escaped).
  cbn [mstart mend group mgroups lookup list_lookup fst snd]. cbv zeta.
  assert (G1 : substr T (length P) p1 = conv).
  { rewrite E1. subst p1. apply substr_middle. }
  assert (G2 : substr T p1 p2 = sep).
  { rewrite E2, L1. subst p2. rewrite L1. apply substr_middle. }
  assert (G3 : substr T p2 p3 = digits).
  { rewrite E3, L2. subst p3. rewrite L2. apply substr_middle. }
  rewrite G1, G2, G3.
  assert (Hconv : 2 <= len conv).
  { subst conv. unfold conversion, len. cbn [length]. rewrite length_app. cbn. lia. }
  pose proof (len_nonneg (separatorOf sep)).
  rewrite strconvAtoi_digits by (auto; nia).
  rewrite repeatWithSep_join by assumption. cbn [bind].
  rewrite (substr_prefix P (occ ++ R)) by exact Hprev.
  f_equal. f_equal.
  - now rewrite <- app_assoc.
  - subst p3 p2 p1 occ. cbn [renderSegment]. fold conv.
    rewrite !length_app. cbn [length]. lia.
Qed.

Lemma findAllFrom_rep (R : gostring) pos mods letter sep digits :
  wfSegment (Rep mods letter sep digits) = true ->
  let occ := renderSegment (Rep mods letter sep digits) in
  let p1 := (pos + length (conversion mods letter))%nat in
  let p2 := (p1 + length sep)%nat in
  let p3 := (p2 + length digits)%nat in
  findAllFrom printSpecPat 3 (occ ++ R) pos 0
  = mkMatch pos (S p3) [None; Some (pos, p1); Some (p1, p2); Some (p2, p3)]
    :: findAllFrom printSpecPat 3 R (pos + length occ) 0.
Proof.
  intros (Hm & Hl & Hs & Hne & Hd & _)%wfSegment_rep occ p1 p2 p3.
  rewrite (findAllFrom_hit _ _ (occ ++ R) pos
             (mkMatch pos (S p3) [None; Some (pos, p1); Some (p1, p2); Some (p2, p3)])
             (length occ)).
  - now rewrite drop_app_length.
  - subst occ. cbn [renderSegment]. rewrite <- !app_assoc. cbn [app].
    now apply printSpec_hit.
  - subst p3 p2 p1 occ. cbn [mend renderSegment]. rewrite !length_app.
    cbn [length]. lia.
  - subst occ. cbn [renderSegment]. unfold conversion.
    rewrite !length_app. cbn [length]. lia.
Qed.

Lemma expand_segments segs : forall (P buf : gostring) prev,
  wfSegments segs -> (prev <= length P)%nat -> last P <> Some "%"%char ->
  exists buf' prev',
    processMatches (P ++ renderTemplate segs) (buf, prev)
      (findAllFrom printSpecPat 3 (renderTemplate segs) (length P) 0)
    = Ok (buf', prev') /\
    buf' ++ drop prev' (P ++ renderTemplate segs)
    = buf ++ drop prev P ++ expandTemplate segs.
Proof.
  induction segs as [|seg segs IH]; intros P buf prev Hwf Hprev HP.
  - exists buf, prev. split; [reflexivity|]. cbn.
    rewrite !app_nil_r. reflexivity.
  - inversion Hwf as [|? ? Hseg Hwf']; subst.
    change (renderTemplate (seg :: segs))
      with (renderSegment seg ++ renderTemplate segs).
    change (expandTemplate (seg :: segs))
      with (expandSegment seg ++ expandTemplate segs).
    destruct seg as [t|mods letter sep digits].
    + cbn [renderSegment expandSegment]. cbn [wfSegment] in Hseg.
      rewrite lit_skip by exact Hseg.
      rewrite <- length_app, app_assoc.
      destruct (IH (P ++ t) buf prev Hwf') as (buf' & prev' & Hrun & Heq).
      { rewrite length_app. lia. }
      { now apply last_lit. }
      exists buf', prev'. split; [exact Hrun|].
      rewrite Heq, drop_app_le by exact Hprev. now rewrite <- app_assoc.
    + rewrite findAllFrom_rep by exact Hseg. cbn [processMatches].
      rewrite processMatch_rep by assumption. cbn [bind].
      set (occ := renderSegment (Rep mods letter sep digits)).
      rewrite <- length_app, app_assoc.
      destruct (IH (P ++ occ)
                  (buf ++ drop prev P ++ expandSegment (Rep mods letter sep digits))
                  (length (P ++ occ)) Hwf') as (buf' & prev' & Hrun & Heq).
      { lia. }
      { subst occ. cbn [renderSegment]. rewrite !app_assoc, last_snoc. discriminate. }
      exists buf', prev'. split; [exact Hrun|].
      rewrite Heq, drop_all. cbn [app]. now rewrite <- !app_assoc.
Qed.

Lemma expand_template segs :
  wfSegments segs ->
  processPrintFmt (renderTemplate segs) = Ok (expandTemplate segs).
Proof.
  intros Hwf.
  destruct (expand_segments segs [] [] 0%nat Hwf) as (buf' & prev' & Hrun & Heq);
    [reflexivity|discriminate|].
  cbn [app length drop] in *. unfold processPrintFmt, findAll.
  destruct (findAllFrom printSpecPat 3 (renderTemplate segs) 0 0) as [|m mat].
  - cbn in Hrun. injection Hrun as <- <-. cbn [app] in Heq.
    rewrite drop_0 in Heq. now rewrite Heq.
  - rewrite Hrun. cbn [bind fst snd]. now rewrite Heq.
Qed.






End Shorthand.

(** ** The default template and the directive count *)

Section DefaultTemplate.

Lemma printSpec_needs_hash s pos m :
  matchAt printSpecPat 3 s pos = Some m -> In "#"%char s.
Proof.
  unfold matchAt, printSpecPat. intros H.
  rewrite exec_Seq in H. apply exec_inv in H as (l1 & s1 & cs1 & -> & H).
  rewrite exec_Seq in H. apply exec_inv in H as (l2 & s2 & cs2 & -> & H).
  rewrite exec_Seq in H. apply exec_inv in H as (l3 & s3 & cs3 & -> & H).
  cbn [exec] in H. destruct s3 as [|c s3]; [discriminate|].
  destruct (isByte "#" c) eqn:E; [|discriminate].
  apply Ascii.eqb_eq in E. subst c.
  rewrite !in_app_iff. right. right. right. left. reflexivity.
Qed.

Lemma findAll_no_hash s : forall pos,
  ~ In "#"%char s -> findAllFrom printSpecPat 3 s pos 0 = [].
Proof.
  induction s as [|c s IH]; intros pos Hno; [reflexivity|].
  destruct (matchAt printSpecPat 3 (c :: s) pos) as [m|] eqn:E.
  - apply printSpec_needs_hash in E. contradiction.
  - rewrite findAllFrom_miss by exact E. apply IH. intros Hin. apply Hno. now right.
Qed.

Lemma defaultTemplate_S k :
  defaultTemplate (S k) = hexSpec ++ concat (repeat (" " ++ hexSpec) k).
Proof. unfold defaultTemplate. apply joinWith_repeat. Qed.

Lemma defaultTemplate_no_hash n : ~ In "#"%char (defaultTemplate n).
Proof.
  destruct n as [|k]; [intros []|]. rewrite defaultTemplate_S.
  rewrite in_app_iff. intros [H|H].
  - cbn in H. intuition discriminate.
  - apply in_concat in H as (x & Hx & Hin). apply repeat_spec in Hx. subst x.
    cbn in Hin. intuition discriminate.
Qed.

Lemma generatePrintFmt_default n :
  1 <= n -> 5 * n <= Int.max ->
  generatePrintFmt n " " = Ok (defaultTemplate (Z.to_nat n)).
Proof.
  intros Hn Hmax. unfold generatePrintFmt, defaultTemplate.
  apply repeatWithSep_join; [exact Hn|]. change (len ("%02x" : gostring)) with 4.
  change (len (" " : gostring)) with 1. lia.
Qed.

Lemma count_tail k : forall pos,
  length (findAllFrom countSpecPat 1 (concat (repeat (" " ++ hexSpec) k)) pos 0) = k.
Proof.
  induction k as [|k IH]; intros pos.
  { cbn. unfold matchAt. cbn. destruct (pos =? 0)%nat; reflexivity. }
  cbn [repeat concat].
  rewrite (findAllFrom_hit _ _ _ pos
             (mkMatch pos (5 + pos) [None; Some (pos, (5 + pos)%nat)]) 5).
  - rewrite drop_app_length' by reflexivity. cbn [length]. now rewrite IH.
  - reflexivity.
  - cbn [mend]. lia.
  - rewrite length_app. cbn. lia.
Qed.

Lemma count_default k : countPrintFmtSpec (defaultTemplate (S k)) = len (repeat I8 (S k)).
Proof.
  rewrite defaultTemplate_S. unfold countPrintFmtSpec, findAll, len.
  rewrite (findAllFrom_hit _ _ _ 0
             (mkMatch 0 4 [None; Some (0, 4)%nat]) 4).
  - rewrite drop_app_length' by reflexivity. cbn [length].
    now rewrite count_tail, repeat_length.
  - reflexivity.
  - reflexivity.
  - rewrite length_app. cbn. lia.
Qed.

Lemma live_tail k : forall prev,
  liveFrom prev (concat (repeat (" " ++ hexSpec) k)) = Z.of_nat k.
Proof.
  induction k as [|k IH]; intros prev; [reflexivity|].
  cbn [repeat concat]. cbn -[Z.add Z.of_nat concat repeat].
  rewrite IH. destruct prev as [b|]; [destruct (isByte "%" b)|]; cbn; lia.
Qed.

Lemma live_default k : liveDirectives (defaultTemplate (S k)) = Z.of_nat (S k).
Proof.
  rewrite defaultTemplate_S. unfold liveDirectives.
  cbn -[Z.add Z.of_nat concat repeat]. rewrite live_tail. lia.
Qed.

Lemma generatePrintFmt_overflow n :
  Int.max < 5 * n -> generatePrintFmt n " " = Panic PanicRepeatCount.
Proof.
  intros H. unfold generatePrintFmt, repeatWithSep, stringsRepeat.
  change (len ("%02x" ++ " ")) with 5.
  destruct (Z.ltb_spec n 0); [reflexivity|].
  destruct (Z.ltb_spec Int.max (5 * n)); [reflexivity|lia].
Qed.

Lemma processPrintFmt_default n :
  processPrintFmt (defaultTemplate n) = Ok (defaultTemplate n).
Proof.
  apply processPrintFmt_escaped. unfold findAll.
  rewrite findAll_no_hash; [constructor|apply defaultTemplate_no_hash].
Qed.

Lemma generatePrintFmt_cases (fd : list intType) :
  (fd = [] /\ generatePrintFmt (len fd) " " = Panic PanicSliceBounds) \/
  (Int.max < 5 * len fd /\ generatePrintFmt (len fd) " " = Panic PanicRepeatCount) \/
  (1 <= len fd /\ 5 * len fd <= Int.max /\
   generatePrintFmt (len fd) " " = Ok (defaultTemplate (length fd))).
Proof.
  destruct fd as [|t fd]; [left; split; reflexivity|]. right.
  assert (1 <= len (t :: fd)) by (unfold len; cbn [length]; lia).
  destruct (Z.lt_ge_cases Int.max (5 * len (t :: fd))) as [Hbig|Hok].
  - left. split; [exact Hbig|]. now apply generatePrintFmt_overflow.
  - right. repeat split; try assumption.
    rewrite generatePrintFmt_default by assumption.
    unfold len. now rewrite Nat2Z.id.
Qed.

Lemma default_counts (fd : list intType) :
  fd <> [] ->
  countPrintFmtSpec (defaultTemplate (length fd)) = len fd /\
  liveDirectives (defaultTemplate (length fd)) = len fd.
Proof.
  destruct fd as [|t fd]; [congruence|]. intros _. cbn [length]. split.
  - rewrite count_default. unfold len. now rewrite repeat_length.
  - now rewrite live_default.
Qed.

(** C7: when no template is given, the default template synthesized for
    a layout of N fields is one "%02x" per field joined by spaces; both
    the count of the program and the number of live directives of that
    template are N, so [setup] accepts it, and the default path never
    ends in the field count mismatch. *)
Theorem default_template_field_count (opt : options) (fd : list intType) (sz : Z) :
  printFmt opt = [] ->
  parseBinaryFmtSpec (binaryFmt opt) = Ok (fd, sz) ->
  (forall t, generatePrintFmt (len fd) " " = Ok t ->
     t = defaultTemplate (length fd) /\
     processPrintFmt t = Ok t /\
     countPrintFmtSpec t = len fd /\
     liveDirectives t = len fd) /\
  (1 <= len fd -> 5 * len fd <= Int.max ->
     setup opt = Ok (fd, sz, defaultTemplate (length fd) ++ newline)) /\
  (forall b p, setup opt <> Panic (PanicMismatch b p)).
Proof.
  intros Hp Hparse.
  assert (Hgood : 1 <= len fd -> fd <> []).
  { intros H ->. change (1 <= 0) in H. lia. }
  assert (Hsetup : 1 <= len fd -> 5 * len fd <= Int.max ->
                   setup opt = Ok (fd, sz, defaultTemplate (length fd) ++ newline)).
  { intros H1 H2. unfold setup. rewrite Hparse, Hp. cbn [bind].
    destruct (generatePrintFmt_cases fd) as [[-> _]|[[? _]|(_ & _ & ->)]];
      [change (1 <= 0) in H1; lia|lia|].
    cbn [bind]. rewrite processPrintFmt_default. cbn [bind].
    destruct (default_counts fd (Hgood H1)) as [-> _].
    now rewrite Z.eqb_refl. }
  split; [|split].
  - intros t Ht.
    destruct (generatePrintFmt_cases fd) as [[_ E]|[[_ E]|(H1 & _ & E)]];
      rewrite E in Ht; try discriminate.
    injection Ht as <-. split; [reflexivity|].
    split; [apply processPrintFmt_default|]. apply default_counts, Hgood, H1.
  - exact Hsetup.
  - intros b p. unfold setup. rewrite Hparse, Hp. cbn [bind].
    destruct (generatePrintFmt_cases fd) as [[_ E]|[[_ E]|(H1 & H2 & E)]].
    + rewrite E. discriminate.
    + rewrite E. discriminate.
    + specialize (Hsetup H1 H2). unfold setup in Hsetup.
      rewrite Hparse, Hp in Hsetup. cbn [bind] in Hsetup. rewrite Hsetup.
      discriminate.
Qed.

Lemma default_template_field_count_witness :
  (forall t, generatePrintFmt 16 " " = Ok t ->
     t = defaultTemplate 16 /\
     processPrintFmt t = Ok t /\
     countPrintFmtSpec t = 16 /\
     liveDirectives t = 16) /\
  (1 <= 16 -> 5 * 16 <= Int.max ->
     setup (mkOptions false false false defautlBinaryFmt [])
     = Ok (repeat U8 16, 16, defaultTemplate 16 ++ newline)) /\
  (forall b p, setup (mkOptions false false false defautlBinaryFmt [])
               <> Panic (PanicMismatch b p)).
Proof.
  apply (default_template_field_count
           (mkOptions false false false defautlBinaryFmt []) (repeat U8 16) 16);
    reflexivity.
Defined.

Lemma parseStep_grows st b st' :
  parseStep st b = Ok st' ->
  (length (formatDesc st) <= length (formatDesc st'))%nat /\
  (descCharMap b <> None -> (1 <= length (formatDesc st'))%nat) /\
  (descCharMap b = None -> typeId (prevDesc st) <> noType).
Proof.
  unfold parseStep. destruct (descCharMap b) as [d|].
  - intros [= <-]. cbn [formatDesc]. rewrite length_app. cbn [length].
    destruct (repeatNum st =? 0); cbn [formatDesc]; unfold appendTimes;
      rewrite ?length_app; repeat split; try lia; congruence.
  - destruct (isDigit b); [|discriminate].
    destruct (typeId (prevDesc st)) eqn:E; cbn; try discriminate;
      intros [= <-]; cbn; repeat split; auto; congruence.
Qed.

Lemma parseLoop_grows s : forall st st',
  parseLoop st s = Ok st' ->
  (length (formatDesc st) <= length (formatDesc st'))%nat.
Proof.
  induction s as [|b s IH]; intros st st'; cbn.
  - intros [= <-]. lia.
  - destruct (parseStep st b) as [st1|] eqn:E; [|discriminate]. cbn.
    intros H%IH. apply parseStep_grows in E as [E _]. lia.
Qed.

(** Only the empty specifier compiles to no field. *)
Lemma parse_no_field binFmt sz :
  parseBinaryFmtSpec binFmt = Ok ([], sz) -> binFmt = [].
Proof.
  unfold parseBinaryFmtSpec. destruct binFmt as [|b s]; [reflexivity|].
  cbn [parseLoop]. destruct (parseStep parseInit b) as [st1|] eqn:E; [|discriminate].
  cbn [bind]. destruct (parseLoop st1 s) as [st|] eqn:E'; [|discriminate].
  cbn [bind]. unfold parseFinish, appendTimes. intros [= Hfd _].
  apply parseLoop_grows in E'. apply parseStep_grows in E as (_ & Hl & Hd).
  destruct (descCharMap b) eqn:Eb.
  - assert (1 <= length (formatDesc st1))%nat by (apply Hl; congruence).
    apply (f_equal length) in Hfd. rewrite length_app in Hfd. cbn in Hfd. lia.
  - exfalso. now apply Hd.
Qed.

(** C10: with a layout of no field, which only the empty specifier
    gives, and no template, generating the default template slices one
    byte off the empty string; the panic is recovered in [main], which
    prints it and exits with status 1 before anything is read. *)
Theorem empty_layout_default_panics (fuel : nat) (opt : options) (r : reader) (sz : Z) :
  printVersion opt = false ->
  printFmt opt = [] ->
  parseBinaryFmtSpec (binaryFmt opt) = Ok ([], sz) ->
  binaryFmt opt = [] /\
  stringsRepeat ("%02x" ++ " ") 0 = Ok [] /\
  sliceTo [] (len (@nil ascii) - len (" " : gostring)) = Panic PanicSliceBounds /\
  generatePrintFmt 0 " " = Panic PanicSliceBounds /\
  main fuel opt (Opened r) = Some ([Println [OPanic PanicSliceBounds]], 1).
Proof.
  intros Hv Hp Hparse. split; [exact (parse_no_field _ _ Hparse)|].
  repeat split. unfold main, setup. now rewrite Hv, Hparse, Hp.
Qed.

Lemma empty_layout_default_panics_witness :
  ([] : gostring) = [] /\
  stringsRepeat ("%02x" ++ " ") 0 = Ok [] /\
  sliceTo [] (len (@nil ascii) - len (" " : gostring)) = Panic PanicSliceBounds /\
  generatePrintFmt 0 " " = Panic PanicSliceBounds /\
  main 1 (mkOptions false false false [] [])
    (Opened (mkReader [Byte.x01; Byte.x02] None))
  = Some ([Println [OPanic PanicSliceBounds]], 1).
Proof.
  apply (empty_layout_default_panics 1 (mkOptions false false false [] [])
           (mkReader [Byte.x01; Byte.x02] None) 0); reflexivity.
Defined.

(** C3 fails on the code: the count pattern takes the byte before a
    directive into the match, so a directive that directly follows
    another one is not counted.  The template "%x%x" is returned
    unchanged by the expansion and has two live directives, the count is
    1, and with a layout of two fields [setup] ends in the mismatch. *)
Theorem count_misses_adjacent_directive :
  processPrintFmt "%x%x" = Ok ("%x%x" : gostring) /\
  liveDirectives "%x%x" = 2 /\
  countPrintFmtSpec "%x%x" = 1 /\
  setup (mkOptions false false false "C2" "%x%x") = Panic (PanicMismatch 2 1).
Proof. repeat split. Qed.

End DefaultTemplate.

(** ** The record loop *)

Section RecordLoop.

Lemma readField_typed st i t :
  t <> noType ->
  readField st i t =
  let '(r, res) := readFull (rdReader st) (width t) in
  let '(g, err) :=
    match res with
    | inr bs => (setScratch (rdScratch st) t (decode t bs), None)
    | inl e => (rdScratch st, Some e)
    end in
  try data <- setIndex (rdData st) i (IVal t (getScratch g t)) in
  Ok (mkRead r g data (rdN st) err).
Proof. destruct t; congruence || reflexivity. Qed.

Lemma getScratch_set g t v : t <> noType -> getScratch (setScratch g t v) t = v.
Proof. destruct t; congruence || reflexivity. Qed.

Lemma readFull_enough (c more : list Byte.byte) fail n :
  length c = n ->
  readFull (mkReader (c ++ more) fail) n = (mkReader more fail, inr c).
Proof.
  intros <-. unfold readFull. cbn [pending failure].
  destruct (Nat.leb_spec (length c) (length (c ++ more))) as [_|H].
  - now rewrite drop_app_length, take_app_length.
  - rewrite length_app in H. lia.
Qed.

Lemma readFull_short (rest : list Byte.byte) fail n :
  (length rest < n)%nat ->
  readFull (mkReader rest fail) n = (mkReader [] fail, inl (endError fail rest)).
Proof.
  intros H. unfold readFull. cbn [pending failure].
  destruct (Nat.leb_spec n (length rest)); [lia|reflexivity].
Qed.

Lemma setIndex_in data i x :
  (i < length data)%nat -> setIndex data i x = Ok (<[i := x]> data).
Proof.
  intros H. unfold setIndex. destruct (Nat.ltb_spec i (length data)); [reflexivity|lia].
Qed.

Lemma values_length fd chunks : shaped fd chunks -> length (values fd chunks) = length fd.
Proof.
  intros H. unfold values. rewrite length_zip_with_l_eq; [reflexivity|].
  eapply Forall2_length, H.
Qed.

Lemma take_S_insert (data : list iface) i x :
  (i < length data)%nat -> take (S i) (<[i := x]> data) = take i data ++ [x].
Proof.
  intros H.
  rewrite (take_S_r _ _ x) by (now apply list_lookup_insert_eq).
  now rewrite take_insert_ge by lia.
Qed.

(** A record whose bytes are all there: every field is decoded and
    stored. *)
Lemma readFields_full fail more fd chunks :
  shaped fd chunks -> Forall (fun t => t <> noType) fd ->
  forall i g data n0,
    (i + length fd <= length data)%nat ->
    exists g',
      readFields fd i (mkRead (mkReader (concat chunks ++ more) fail) g data n0 None)
      = Ok (mkRead (mkReader more fail) g'
              (take i data ++ values fd chunks ++ drop (i + length fd) data)
              (n0 + length fd) None).
Proof.
  induction 1 as [|t c fd chunks Hc Hsh IH]; intros Hvalid i g data n0 Hlen.
  - exists g. cbn. rewrite !Nat.add_0_r, take_drop. reflexivity.
  - inversion Hvalid as [|? ? Ht Hvalid']; subst. cbn [length] in Hlen.
    cbn [readFields concat]. rewrite readField_typed by exact Ht.
    cbn [rdReader rdScratch rdData rdN]. rewrite <- app_assoc.
    rewrite readFull_enough by exact Hc.
    rewrite getScratch_set by exact Ht.
    rewrite setIndex_in by lia. cbn [bind rdErr rdReader rdScratch rdData rdN].
    destruct (IH Hvalid' (S i) (setScratch g t (decode t c))
                (<[i := IVal t (decode t c)]> data) (S n0)) as (g' & Hrun).
    { rewrite length_insert. lia. }
    exists g'. rewrite Hrun. do 2 f_equal; [|cbn [length]; lia].
    rewrite take_S_insert by lia. rewrite drop_insert_lt by lia.
    rewrite <- app_assoc. cbn [app values zip_with length].
    replace (i + S (length fd))%nat with (S i + length fd)%nat by lia.
    reflexivity.
Qed.

(** A record that the stream ends in: the fields before the end are
    decoded and stored, the read of the next one fails. *)
Lemma readFields_partial fail rest t fdB fdA chunks :
  shaped fdA chunks -> Forall (fun t => t <> noType) fdA ->
  t <> noType -> (length rest < width t)%nat ->
  forall i g data n0,
    (i + length fdA < length data)%nat ->
    exists g' data',
      readFields (fdA ++ t :: fdB) i
        (mkRead (mkReader (concat chunks ++ rest) fail) g data n0 None)
      = Ok (mkRead (mkReader [] fail) g' data' (n0 + length fdA)
              (Some (endError fail rest))) /\
      take (i + length fdA) data' = take i data ++ values fdA chunks.
Proof.
  induction 1 as [|t' c fdA chunks Hc Hsh IH]; intros Hvalid Ht Hrest i g data n0 Hlen.
  - exists g, (<[i := IVal t (getScratch g t)]> data).
    cbn [app readFields concat length] in *. rewrite readField_typed by exact Ht.
    cbn [rdReader rdScratch rdData rdN]. rewrite readFull_short by exact Hrest.
    rewrite setIndex_in by lia. cbn [bind rdErr]. rewrite !Nat.add_0_r.
    split; [reflexivity|]. cbn [values zip_with]. rewrite app_nil_r.
    apply take_insert_ge. lia.
  - inversion Hvalid as [|? ? Ht' Hvalid']; subst. cbn [length] in Hlen.
    cbn [app readFields concat]. rewrite readField_typed by exact Ht'.
    cbn [rdReader rdScratch rdData rdN]. rewrite <- app_assoc.
    rewrite readFull_enough by exact Hc.
    rewrite getScratch_set by exact Ht'.
    rewrite setIndex_in by lia. cbn [bind rdErr rdReader rdScratch rdData rdN].
    destruct (IH Hvalid' Ht Hrest (S i) (setScratch g t' (decode t' c))
                (<[i := IVal t' (decode t' c)]> data) (S n0))
      as (g' & data' & Hrun & Htake).
    { rewrite length_insert. lia. }
    exists g', data'. rewrite Hrun. split.
    + do 2 f_equal. cbn [length]. lia.
    + cbn [length]. replace (i + S (length fdA))%nat with (S i + length fdA)%nat by lia.
      rewrite Htake, take_S_insert by lia.
      rewrite <- app_assoc. reflexivity.
Qed.

Lemma afterLoop_take opt pf off cnt d1 d2 n err :
  take n d1 = take n d2 ->
  afterLoop opt pf off cnt d1 n err = afterLoop opt pf off cnt d2 n err.
Proof. intros H. unfold afterLoop. now rewrite H. Qed.

(** The whole loop on a stream of full records followed by a record that
    the stream ends in. *)
Lemma recordLoop_run opt sz pf fail fdA t fdB chunks rest :
  let fd := fdA ++ t :: fdB in
  Forall (fun t => t <> noType) fd ->
  shaped fdA chunks -> (length rest < width t)%nat ->
  forall recs fuel g data cnt off,
    Forall (shaped fd) recs -> length data = length fd ->
    (length recs < fuel)%nat ->
    recordLoop fuel opt fd sz pf
      (mkLoop (mkReader (recordsBytes recs ++ concat chunks ++ rest) fail)
         g data cnt off)
    = Some (fullRecords opt sz pf fd off cnt recs ++
            afterLoop opt pf (offsetAfter sz off recs) (countAfter cnt recs)
              (values fdA chunks) (length fdA) (endError fail rest),
            None).
Proof.
  intros fd Hvalid Hsh Hrest.
  assert (HvalidA : Forall (fun t => t <> noType) fdA)
    by (subst fd; now apply Forall_app in Hvalid as [? _]).
  assert (Ht : t <> noType).
  { subst fd. apply Forall_app in Hvalid as [_ H]. now inversion H. }
  induction recs as [|rec recs IH]; intros fuel g data cnt off Hrecs Hdata Hfuel;
    (destruct fuel as [|fuel]; [cbn in Hfuel; lia|]).
  - change (recordsBytes []) with (@nil Byte.byte).
    cbn [recordLoop app lpReader lpScratch lpData fullRecords].
    unfold readData.
    destruct (readFields_partial fail rest t fdB fdA chunks Hsh HvalidA Ht Hrest
                0%nat g data 0%nat) as (g' & data' & Hrun & Htake).
    { rewrite Hdata. subst fd. rewrite length_app. cbn [length]. lia. }
    fold fd in Hrun. rewrite Hrun. cbn [rdErr rdData rdN recordCnt offSet].
    cbn [Nat.add] in Htake. rewrite take_0 in Htake. cbn [app] in Htake.
    f_equal. f_equal.
    apply afterLoop_take. rewrite Htake.
    symmetry. apply take_ge. rewrite values_length by exact Hsh. lia.
  - inversion Hrecs as [|? ? Hrec Hrecs']; subst.
    change (recordsBytes (rec :: recs)) with (concat rec ++ recordsBytes recs).
    cbn [recordLoop lpReader lpScratch lpData fullRecords].
    unfold readData. rewrite <- app_assoc.
    destruct (readFields_full fail
                (recordsBytes recs ++ concat chunks ++ rest) fd rec Hrec Hvalid
                0%nat g data 0%nat) as (g' & Hrun).
    { rewrite Hdata. lia. }
    rewrite Hrun. cbn [rdErr rdData rdN rdReader rdScratch recordCnt offSet].
    cbn [Nat.add]. rewrite take_0. cbn [app]. rewrite (drop_ge data) by lia. rewrite app_nil_r.
    rewrite (IH fuel g' (values fd rec) (Int.add cnt 1) (Int.add off sz) Hrecs').
    + cbn. now rewrite <- app_assoc.
    + now apply values_length.
    + cbn in Hfuel. lia.
Qed.

Lemma setup_layout opt fd sz pf :
  setup opt = Ok (fd, sz, pf) -> parseBinaryFmtSpec (binaryFmt opt) = Ok (fd, sz).
Proof.
  unfold setup. destruct (parseBinaryFmtSpec (binaryFmt opt)) as [[fd' sz']|];
    [|discriminate].
  cbn [bind]. destruct (match printFmt opt with [] => _ | _ => _ end); [|discriminate].
  cbn [bind]. destruct (processPrintFmt a); [|discriminate].
  cbn [bind]. destruct (negb _); [discriminate|]. now intros [= -> -> _].
Qed.

(** [main] on an opened stream of full records followed by a record
    that the stream ends in, after [n] of its fields. *)
Lemma main_run fuel opt fd sz pf fail recs n t chunks rest :
  printVersion opt = false -> setup opt = Ok (fd, sz, pf) ->
  Forall (shaped fd) recs -> fd !! n = Some t ->
  shaped (take n fd) chunks -> (length rest < width t)%nat ->
  (length recs < fuel)%nat ->
  main fuel opt
    (Opened (mkReader (recordsBytes recs ++ concat chunks ++ rest) fail))
  = Some (fullRecords opt sz pf fd 0 0 recs ++
          afterLoop opt pf (offsetAfter sz 0 recs) (countAfter 0 recs)
            (values (take n fd) chunks) n (endError fail rest), 0).
Proof.
  intros Hv Hsetup Hrecs Hn Hsh Hrest Hfuel.
  pose proof (parse_no_noType _ _ _ (setup_layout _ _ _ _ Hsetup)) as Hvalid.
  pose proof (take_drop_middle fd n t Hn) as Hfd.
  assert (Hlen : length (take n fd) = n).
  { apply lookup_lt_Some in Hn. rewrite length_take. lia. }
  unfold main. rewrite Hv, Hsetup.
  pose proof (recordLoop_run opt sz pf fail (take n fd) t (drop (S n) fd) chunks rest)
    as Hrun.
  cbv zeta in Hrun. rewrite Hfd, Hlen in Hrun.
  rewrite (Hrun Hvalid Hsh Hrest recs fuel scratchInit
             (replicate (length fd) INil) 0 0 Hrecs); auto.
  now rewrite length_replicate.
Qed.

(** C1, as amended: when the stream ends cleanly after between 1 and
    len(FieldLayout)-1 fields of a record were decoded, the loop has
    printed the full records before it and passes the slice of the values
    decoded so far to [fmt.Printf] with the whole template.  The message
    that the final data is not enough is printed only when the stream ends
    inside the next field; when it ends where that field would begin,
    nothing more is written.  The exit status is 0. *)
Theorem partial_record_at_end_of_stream fuel opt fd sz pf recs n t chunks rest :
  printVersion opt = false -> setup opt = Ok (fd, sz, pf) ->
  Forall (shaped fd) recs ->
  (1 <= n)%nat -> fd !! n = Some t ->
  shaped (take n fd) chunks -> (length rest < width t)%nat ->
  (length recs < fuel)%nat ->
  main fuel opt
    (Opened (mkReader (recordsBytes recs ++ concat chunks ++ rest) None))
  = Some (fullRecords opt sz pf fd 0 0 recs ++
          printData opt (offsetAfter sz 0 recs) (countAfter 0 recs) pf
            (values (take n fd) chunks) ++
          match rest with
          | [] => []
          | _ => [insufficientData]
          end, 0).
Proof.
  intros Hv Hsetup Hrecs H1 Hn Hsh Hrest Hfuel.
  rewrite (main_run fuel opt fd sz pf None recs n t chunks rest) by assumption.
  do 3 f_equal. unfold afterLoop.
  destruct n as [|n]; [lia|]. cbn [Nat.eqb negb].
  rewrite take_ge.
  - destruct rest; reflexivity.
  - rewrite values_length by exact Hsh. rewrite length_take. lia.
Qed.

(** C5, as amended: when a read fails with an error other than the end
    of the stream, the loop stops at once, after the full records read
    before; the values decoded so far of the record it was reading are
    still printed as a partial record (with none decoded, the final
    offset line when offsets are shown), and then the failure is
    reported after "While reading data:".  The exit status is 0. *)
Theorem read_failure_reported fuel opt fd sz pf msg recs n t chunks rest :
  printVersion opt = false -> setup opt = Ok (fd, sz, pf) ->
  Forall (shaped fd) recs ->
  fd !! n = Some t ->
  shaped (take n fd) chunks -> (length rest < width t)%nat ->
  (length recs < fuel)%nat ->
  main fuel opt
    (Opened (mkReader (recordsBytes recs ++ concat chunks ++ rest) (Some msg)))
  = Some (fullRecords opt sz pf fd 0 0 recs ++
          match n with
          | O => if printOffset opt
                 then [Printf (offsetFmt ++ newline) [IInt (offsetAfter sz 0 recs)]]
                 else []
          | _ => printData opt (offsetAfter sz 0 recs) (countAfter 0 recs) pf
                   (values (take n fd) chunks)
          end ++
          [Println [OStr "While reading data:"; OErr (ErrOther msg)]], 0).
Proof.
  intros Hv Hsetup Hrecs Hn Hsh Hrest Hfuel.
  rewrite (main_run fuel opt fd sz pf (Some msg) recs n t chunks rest) by assumption.
  do 3 f_equal. unfold afterLoop. cbn [endError].
  destruct n as [|n]; [reflexivity|]. cbn [Nat.eqb negb].
  rewrite take_ge; [reflexivity|].
  rewrite values_length by exact Hsh. rewrite length_take. lia.
Qed.

(** A stream that ends where a record would begin: the full records,
    the final offset line when offsets are shown, and no message. *)
Lemma clean_end_of_stream fuel opt fd sz pf recs :
  printVersion opt = false -> setup opt = Ok (fd, sz, pf) ->
  fd <> [] -> Forall (shaped fd) recs -> (length recs < fuel)%nat ->
  main fuel opt (Opened (mkReader (recordsBytes recs) None))
  = Some (fullRecords opt sz pf fd 0 0 recs ++
          (if printOffset opt
           then [Printf (offsetFmt ++ newline) [IInt (offsetAfter sz 0 recs)]]
           else []), 0).
Proof.
  intros Hv Hsetup Hne Hrecs Hfuel. destruct fd as [|t fd]; [congruence|].
  pose proof (parse_no_noType _ _ _ (setup_layout _ _ _ _ Hsetup)) as Hvalid.
  assert (Ht : (0 < width t)%nat).
  { inversion Hvalid as [|? ? Hno _]; subst. destruct t; cbn; congruence || lia. }
  pose proof (main_run fuel opt (t :: fd) sz pf None recs 0 t [] []
                Hv Hsetup Hrecs eq_refl ltac:(constructor) Ht Hfuel) as Hrun.
  cbn [concat app] in Hrun. rewrite app_nil_r in Hrun. rewrite Hrun.
  unfold afterLoop. cbn. now rewrite app_nil_r.
Qed.

(** With a layout of no field every read succeeds without taking a
    byte, and the loop does not end. *)
Lemma empty_layout_loops fuel : forall opt sz pf st,
  recordLoop fuel opt [] sz pf st = None.
Proof.
  induction fuel as [|fuel IH]; intros opt sz pf st; [reflexivity|].
  cbn. now rewrite IH.
Qed.

End RecordLoop.

(** ** Runs on concrete streams *)

Section Runs.

Lemma partial_record_at_end_of_stream_witness :
  main 3 (layoutC2 [])
    (Opened (mkReader (recordsBytes [[[x01]; [x02]]; [[x03]; [x04]]]
                         ++ concat [[x05]] ++ []) None))
  = Some (fullRecords (layoutC2 []) 2 templateC2 [U8; U8] 0 0
            [[[x01]; [x02]]; [[x03]; [x04]]] ++
          printData (layoutC2 [])
            (offsetAfter 2 0 [[[x01]; [x02]]; [[x03]; [x04]]])
            (countAfter 0 [[[x01]; [x02]]; [[x03]; [x04]]]) templateC2
            (values (take 1 [U8; U8]) [[x05]]) ++
          [], 0).
Proof.
  apply (partial_record_at_end_of_stream 3 (layoutC2 []) [U8; U8] 2 templateC2
           [[[x01]; [x02]]; [[x03]; [x04]]] 1 U8 [[x05]] []).
  - reflexivity.
  - vm_compute. reflexivity.
  - repeat constructor.
  - lia.
  - reflexivity.
  - repeat constructor.
  - cbn. lia.
  - cbn. lia.
Defined.

(** C1 as stated fails for the layout "C2" and the stream 01 02 03 04 05:
    the partial record is written as "05 %!x(MISSING)", with the marker
    of [fmt.Printf] for the directive that has no value, and no message
    about insufficient data follows, since the stream ends where the
    second field would begin. *)
Lemma partial_record_counterexample :
  main 3 (layoutC2 []) (Opened (mkReader [x01; x02; x03; x04; x05] None))
  = Some ([Printf templateC2 [IVal U8 1; IVal U8 2];
           Printf templateC2 [IVal U8 3; IVal U8 4];
           Printf templateC2 [IVal U8 5]], 0) /\
  render (Printf templateC2 [IVal U8 5]) = Some ("05 %!x(MISSING)" ++ newline) /\
  render (Printf templateC2 [IVal U8 5]) <> Some ("05" ++ newline) /\
  ~ In insufficientData
      [Printf templateC2 [IVal U8 1; IVal U8 2];
       Printf templateC2 [IVal U8 3; IVal U8 4];
       Printf templateC2 [IVal U8 5]].
Proof.
  split; [vm_compute; reflexivity|].
  split; [vm_compute; reflexivity|].
  split; [vm_compute; discriminate|].
  intros [H|[H|[H|[]]]]; discriminate.
Qed.

Lemma read_failure_reported_witness :
  main 1 (layoutC2 [])
    (Opened (mkReader (recordsBytes [] ++ concat [[x01]] ++ [])
               (Some ("read error" : gostring))))
  = Some (fullRecords (layoutC2 []) 2 templateC2 [U8; U8] 0 0 [] ++
          printData (layoutC2 []) (offsetAfter 2 0 (@nil (list (list byte))))
            (countAfter 0 (@nil (list (list byte)))) templateC2
            (values (take 1 [U8; U8]) [[x01]]) ++
          [Println [OStr "While reading data:"; OErr (ErrOther "read error")]], 0).
Proof.
  apply (read_failure_reported 1 (layoutC2 []) [U8; U8] 2 templateC2 "read error"
           [] 1 U8 [[x01]] []).
  - reflexivity.
  - vm_compute. reflexivity.
  - constructor.
  - reflexivity.
  - repeat constructor.
  - cbn. lia.
  - cbn. lia.
Defined.

(** C5 as stated fails: with the layout "C2", when the source fails
    after one byte, the value decoded from that byte is printed as a
    trailing partial record before the failure is reported. *)
Lemma read_failure_counterexample :
  main 1 (layoutC2 []) (Opened (mkReader [x01] (Some ("read error" : gostring))))
  = Some ([Printf templateC2 [IVal U8 1];
           Println [OStr "While reading data:"; OErr (ErrOther "read error")]], 0).
Proof. vm_compute. reflexivity. Qed.

End Runs.

(* ================================================================= *)
(** * Further properties of the program *)

(** ** The layout compiler: failures, fields, composition *)

Section ParseMore.

Lemma isLetter_step st c :
  isLetter c = true ->
  exists st', parseStep st c = Ok st' /\ typeId (prevDesc st') <> noType.
Proof.
  unfold isLetter. destruct (descCharMap c) as [d|] eqn:E; [|discriminate].
  intros _. rewrite (parseStep_letter _ _ _ E). eexists. split; [reflexivity|].
  apply (descCharMap_valid _ _ E).
Qed.

Lemma parseLoop_outcome s : forall st,
  typeId (prevDesc st) <> noType ->
  match firstBad s with
  | Some p => parseLoop st s = Panic p
  | None => exists st', parseLoop st s = Ok st'
  end.
Proof.
  induction s as [|c s IH]; intros st Hp; [cbn; eauto|].
  cbn [firstBad parseLoop].
  destruct (isLetter c) eqn:Hl; cbn [orb].
  - destruct (isLetter_step st c Hl) as (st' & -> & Hp'). cbn [bind]. now apply IH.
  - assert (Hnone : descCharMap c = None).
    { unfold isLetter in Hl. now destruct (descCharMap c). }
    destruct (isDigit c) eqn:Hd.
    + rewrite parseStep_digit by assumption. cbn [bind]. now apply IH.
    + unfold parseStep. now rewrite Hnone, Hd.
Qed.

(** X1: the compiler fails exactly on a specifier that begins with a
    digit or has a byte that is neither a type letter nor a digit, and
    the panic is the one of the first such byte; every other specifier
    compiles. *)
Theorem compile_outcome (binFmt : gostring) :
  match firstError binFmt with
  | Some p => parseBinaryFmtSpec binFmt = Panic p
  | None => exists fd sz, parseBinaryFmtSpec binFmt = Ok (fd, sz)
  end.
Proof.
  unfold parseBinaryFmtSpec. destruct binFmt as [|c s]; [cbn; eauto|].
  cbn [firstError parseLoop]. destruct (isLetter c) eqn:Hl.
  - destruct (isLetter_step parseInit c Hl) as (st' & -> & Hp'). cbn [bind].
    pose proof (parseLoop_outcome s st' Hp') as H.
    destruct (firstBad s).
    + now rewrite H.
    + destruct H as [st'' ->]. cbn [bind]. destruct (parseFinish st''). eauto.
  - assert (Hnone : descCharMap c = None).
    { unfold isLetter in Hl. now destruct (descCharMap c). }
    unfold parseStep. rewrite Hnone. now destruct (isDigit c).
Qed.

(** X2: every field of a compiled layout is one of the eight integer
    types, so [readData] reads at least one byte for it, and only the
    empty specifier compiles to a layout without fields. *)
Theorem compiled_fields_are_typed (binFmt : gostring) fd sz :
  parseBinaryFmtSpec binFmt = Ok (fd, sz) ->
  Forall (fun t => t <> noType /\ (1 <= width t <= 8)%nat) fd /\
  (fd = [] -> binFmt = []).
Proof.
  intros H. split.
  - eapply Forall_impl; [exact (parse_no_noType _ _ _ H)|].
    intros t Ht. split; [exact Ht|]. destruct t; cbn; congruence || lia.
  - intros ->. exact (parse_no_field _ _ H).
Qed.

Lemma compiled_fields_are_typed_witness :
  Forall (fun t => t <> noType /\ (1 <= width t <= 8)%nat) [I16; U32; U32; I8] /\
  ([I16; U32; U32; I8] = [] -> ("sL2c" : gostring) = []).
Proof. apply (compiled_fields_are_typed "sL2c" [I16; U32; U32; I8] 11). reflexivity. Defined.

Lemma wrap_add_r a b : Int.wrap (a + Int.wrap b) = Int.wrap (a + b).
Proof. rewrite Z.add_comm, wrap_add_l. f_equal. lia. Qed.

Lemma add_assoc64 a b c : Int.add (Int.add a b) c = Int.add a (Int.add b c).
Proof.
  unfold Int.add. rewrite wrap_add_l, wrap_add_r. f_equal. lia.
Qed.

Lemma parseStep_shift F Z st c :
  parseStep (shiftState F Z st) c
  = try st' <- parseStep st c in Ok (shiftState F Z st').
Proof.
  unfold parseStep, shiftState. cbn [formatDesc recSize repeatNum prevDesc].
  destruct (descCharMap c) as [d|].
  - destruct (repeatNum st =? 0); cbn [bind formatDesc recSize repeatNum prevDesc];
      unfold appendTimes; rewrite ?add_assoc64, <- ?app_assoc; reflexivity.
  - destruct (isDigit c); [|reflexivity].
    destruct (isNoType (typeId (prevDesc st))); reflexivity.
Qed.

Lemma parseLoop_shift F Z s : forall st,
  parseLoop (shiftState F Z st) s
  = try st' <- parseLoop st s in Ok (shiftState F Z st').
Proof.
  induction s as [|c s IH]; intros st; [reflexivity|].
  cbn [parseLoop]. rewrite parseStep_shift.
  destruct (parseStep st c) as [st1|]; cbn [bind]; [apply IH|reflexivity].
Qed.

Lemma parseFinish_shift F Z st :
  parseFinish (shiftState F Z st)
  = (F ++ (parseFinish st).1, Int.add Z (parseFinish st).2).
Proof.
  unfold parseFinish, shiftState, appendTimes.
  cbn [formatDesc recSize repeatNum prevDesc fst snd].
  destruct (repeatNum st =? 0); rewrite ?add_assoc64, <- ?app_assoc; reflexivity.
Qed.

(** X3: compiling is compositional.  When the second of two specifiers
    begins with a type letter, the concatenation compiles to the fields
    of the first followed by the fields of the second, and the record
    sizes add up (in 64-bit arithmetic). *)
Theorem compile_append (s1 s2 : gostring) (c : ascii) fd1 sz1 fd2 sz2 :
  isLetter c = true ->
  parseBinaryFmtSpec s1 = Ok (fd1, sz1) ->
  parseBinaryFmtSpec (c :: s2) = Ok (fd2, sz2) ->
  parseBinaryFmtSpec (s1 ++ c :: s2) = Ok (fd1 ++ fd2, Int.add sz1 sz2).
Proof.
  unfold isLetter, parseBinaryFmtSpec.
  destruct (descCharMap c) as [d|] eqn:E; [|discriminate]. intros _.
  rewrite parseLoop_app.
  destruct (parseLoop parseInit s1) as [st1|]; [|discriminate].
  cbn [bind parseLoop]. intros H1'.
  assert (H1 : parseFinish st1 = (fd1, sz1)) by congruence. clear H1'.
  rewrite !(parseStep_letter _ _ _ E).
  cbn [bind]. rewrite H1. cbn [fst snd].
  change (parseFinish parseInit) with (@nil intType, 0). cbn [fst snd app].
  set (st0 := mkParse [typeId d] (Int.add 0 (size d)) 0 d).
  replace (mkParse (fd1 ++ [typeId d]) (Int.add sz1 (size d)) 0 d)
    with (shiftState fd1 (Int.wrap sz1) st0).
  - rewrite parseLoop_shift.
    destruct (parseLoop st0 s2) as [st2|]; [|discriminate].
    cbn [bind]. intros H2'.
    assert (H2 : parseFinish st2 = (fd2, sz2)) by congruence. clear H2'.
    rewrite parseFinish_shift, H2. cbn [fst snd].
    do 2 f_equal. unfold Int.add. rewrite wrap_add_l. reflexivity.
  - unfold shiftState, st0. cbn [formatDesc recSize repeatNum prevDesc].
    f_equal. unfold Int.add. rewrite wrap_add_l, wrap_add_r. f_equal.
Qed.

Lemma compile_append_witness :
  parseBinaryFmtSpec ("sL2" ++ "c"%char :: "3Q")
  = Ok ([I16; U32; U32] ++ [I8; I8; I8; U64], Int.add 10 11).
Proof.
  apply (compile_append "sL2" "3Q" "c" [I16; U32; U32] 10 [I8; I8; I8; U64] 11);
    reflexivity.
Defined.

End ParseMore.

(** ** The template: joining, unchanged templates, the count *)

Section TemplateMore.

Lemma len_concat_repeat (x : gostring) k :
  len (concat (repeat x k)) = Z.of_nat k * len x.
Proof.
  induction k as [|k IH]; [reflexivity|].
  cbn [repeat concat]. rewrite len_app, IH. lia.
Qed.

Lemma len_joinWith_repeat (rep sep : gostring) k :
  len (joinWith sep (repeat rep (S k)))
  = Z.of_nat (S k) * len rep + Z.of_nat k * len sep.
Proof.
  rewrite joinWith_repeat, len_app, len_concat_repeat, len_app. lia.
Qed.

(** X4: [repeatWithSep] returns [cnt] copies of [rep] joined by [sep],
    of length cnt*len(rep) + (cnt-1)*len(sep), for a count of at least 1
    whose output fits in a string; it panics on a negative count, and on
    the count 0 with a separator that is not empty, where it slices
    before the start of the empty string. *)
Theorem repeatWithSep_outcome (rep sep : gostring) (cnt : Z) :
  (cnt < 0 -> repeatWithSep rep sep cnt = Panic PanicRepeatCount) /\
  (cnt = 0 -> sep <> [] -> repeatWithSep rep sep cnt = Panic PanicSliceBounds) /\
  (cnt = 0 -> sep = [] -> repeatWithSep rep sep cnt = Ok []) /\
  (1 <= cnt -> (len rep + len sep) * cnt <= Int.max ->
   exists out,
     repeatWithSep rep sep cnt = Ok out /\
     out = joinWith sep (repeat rep (Z.to_nat cnt)) /\
     len out = cnt * len rep + (cnt - 1) * len sep).
Proof.
  repeat split.
  - intros H. unfold repeatWithSep, stringsRepeat.
    destruct (Z.ltb_spec cnt 0); [reflexivity|lia].
  - intros -> Hsep. unfold repeatWithSep, stringsRepeat. cbn [Z.ltb Z.compare].
    rewrite Z.mul_0_r. cbn. unfold sliceTo.
    destruct sep as [|c sep]; [congruence|].
    change (len []) with 0. unfold len. cbn [length].
    destruct (Z.ltb_spec (0 - Z.of_nat (S (length sep))) 0); [reflexivity|lia].
  - intros -> ->. unfold repeatWithSep, stringsRepeat. cbn [Z.ltb Z.compare].
    rewrite Z.mul_0_r. reflexivity.
  - intros Hn Hmax. eexists. split; [now apply repeatWithSep_join|].
    split; [reflexivity|].
    destruct (Z.to_nat cnt) as [|k] eqn:E; [lia|].
    rewrite len_joinWith_repeat. lia.
Qed.

Lemma repeatWithSep_outcome_witness :
  exists out,
    repeatWithSep "%02x" ", " 3 = Ok out /\
    out = joinWith ", " (repeat ("%02x" : gostring) (Z.to_nat 3)) /\
    len out = 3 * len ("%02x" : gostring) + (3 - 1) * len (", " : gostring).
Proof.
  apply (proj2 (proj2 (proj2 (repeatWithSep_outcome "%02x" ", " 3)))).
  - lia.
  - vm_compute. discriminate.
Defined.

Lemma notin_forallb (c0 : ascii) (T : gostring) :
  ~ In c0 T -> forallb (fun c => negb (isByte c0 c)) T = true.
Proof.
  induction T as [|c T IH]; intros Hno; [reflexivity|].
  cbn [forallb]. rewrite IH by (intros H; apply Hno; now right).
  unfold isByte. destruct (Ascii.eqb_spec c c0) as [->|]; [|reflexivity].
  exfalso. apply Hno. now left.
Qed.

(** X5: a template that has no "#", or no "%", is returned unchanged by
    the expansion. *)
Theorem expand_plain_template (T : gostring) :
  ~ In "#"%char T \/ ~ In "%"%char T ->
  processPrintFmt T = Ok T.
Proof.
  intros H. apply processPrintFmt_escaped. unfold findAll.
  destruct H as [H|H].
  - rewrite findAll_no_hash by exact H. constructor.
  - rewrite <- (app_nil_r T), lit_skip by (now apply notin_forallb). constructor.
Qed.

Lemma expand_plain_template_witness :
  processPrintFmt "%04d: %02x %02x" = Ok ("%04d: %02x %02x" : gostring).
Proof.
  apply expand_plain_template. left. vm_compute. intuition discriminate.
Defined.

Lemma directiveBody_conv mods letter rest :
  forallb (fun c => negb (inSet "cdxo%" c)) mods = true ->
  inSet "cdxo" letter = true ->
  directiveBody (mods ++ letter :: rest) = true.
Proof.
  intros Hm Hl. induction mods as [|c mods IH]; cbn [app directiveBody].
  - now rewrite Hl.
  - cbn [forallb] in Hm. apply andb_prop in Hm as [Hc Hm].
    apply negb_true_iff in Hc.
    assert (H1 : inSet "cdxo" c = false).
    { destruct (inSet "cdxo" c) eqn:E; [|reflexivity].
      apply inSet_cdxo_pct in E. congruence. }
    assert (H2 : isByte "%" c = false).
    { unfold inSet in Hc. cbn in Hc. unfold isByte.
      destruct (Ascii.eqb c "%"); [|reflexivity].
      now rewrite !orb_true_r in Hc. }
    rewrite H1, H2. now apply IH.
Qed.

(** What the count pattern matches: a directive with the byte before
    it, which is not "%", or a directive at the start of the text. *)
Lemma countSpec_sound s pos m :
  matchAt countSpecPat 1 s pos = Some m ->
  exists mods letter rest,
    forallb (fun c => negb (inSet "cdxo%" c)) mods = true /\
    inSet "cdxo" letter = true /\
    ((exists c, isByte "%" c = false /\
                s = c :: conversion mods letter ++ rest /\
                mend m = (pos + S (length (conversion mods letter)))%nat) \/
     (pos = 0%nat /\ s = conversion mods letter ++ rest /\
      mend m = length (conversion mods letter))).
Proof.
  unfold matchAt. intros H.
  apply exec_sound in H as (l & s' & cs' & -> & M & [= <-]).
  unfold countSpecPat, specStr in M.
  inversion M as [| | | | | |? ? ? ? ? ? M']; subst; clear M.
  inversion M'; subst; clear M';
    repeat match goal with
           | H : matched (Seq _ _) _ _ _ _ |- _ => inversion H; subst; clear H
           | H : matched (Class _) _ _ _ _ |- _ => inversion H; subst; clear H
           | H : matched (Star _) _ _ _ _ |- _ => inversion H; subst; clear H
           | H : matched BeginText _ _ _ _ |- _ => inversion H; subst; clear H
           end;
    repeat match goal with
           | H : isByte _ _ = true |- _ => apply Ascii.eqb_eq in H; subst
           end.
  - match goal with
    | Hm : forallb _ ?mods = true, Hl : inSet _ ?letter = true,
      Hc : negb (isByte _ ?c1) = true |- _ =>
        exists mods, letter, s'; split; [exact Hm|]; split; [exact Hl|];
        left; exists c1; split; [now apply negb_true_iff in Hc|]
    end.
    split.
    + unfold conversion. cbn [app]. now rewrite <- !app_assoc.
    + cbn [mend]. unfold conversion. cbn [length app]. rewrite !length_app.
      cbn [length]. lia.
  - match goal with
    | Hm : forallb _ ?mods = true, Hl : inSet _ ?letter = true |- _ =>
        exists mods, letter, s'; split; [exact Hm|]; split; [exact Hl|]; right
    end.
    split; [reflexivity|]. split.
    + unfold conversion. cbn [app]. now rewrite <- !app_assoc.
    + cbn [mend]. unfold conversion. cbn [length app]. rewrite !length_app.
      cbn [length]. lia.
Qed.

Lemma liveFrom_cons prev c s :
  liveFrom prev (c :: s)
  = (if directiveAt (c :: s) &&
        negb match prev with Some b => isByte "%" b | None => false end
     then 1 else 0) + liveFrom (Some c) s.
Proof. reflexivity. Qed.

Lemma liveFrom_head prev s :
  liveFrom prev s
  = (if directiveAt s &&
        negb match prev with Some b => isByte "%" b | None => false end
     then 1 else 0) + liveFrom (Some "%"%char) s.
Proof.
  destruct s as [|c s]; [reflexivity|]. cbn [liveFrom].
  change (isByte "%" "%") with true. cbn [negb]. rewrite andb_false_r. lia.
Qed.

Lemma liveFrom_ge prev s : liveFrom (Some "%"%char) s <= liveFrom prev s.
Proof. rewrite (liveFrom_head prev). destruct (_ && _); lia. Qed.

Lemma liveFrom_app l : forall prev r,
  liveFrom (Some "%"%char) r <= liveFrom prev (l ++ r).
Proof.
  induction l as [|c l IH]; intros prev r; [apply liveFrom_ge|].
  cbn [app liveFrom]. specialize (IH (Some c) r). destruct (_ && _); lia.
Qed.

Lemma liveFrom_conv prev mods letter rest :
  forallb (fun c => negb (inSet "cdxo%" c)) mods = true ->
  inSet "cdxo" letter = true ->
  match prev with Some b => isByte "%" b | None => false end = false ->
  1 + liveFrom (Some "%"%char) rest
  <= liveFrom prev (conversion mods letter ++ rest).
Proof.
  intros Hm Hl Hp. rewrite (liveFrom_head prev), Hp. unfold conversion at 1.
  cbn [app directiveAt]. change (isByte "%" "%") with true.
  rewrite <- app_assoc. cbn [app].
  rewrite (directiveBody_conv _ _ _ Hm Hl). cbn [andb negb].
  pose proof (liveFrom_app (conversion mods letter) (Some "%"%char) rest).
  unfold conversion in *. cbn [app] in *. rewrite <- app_assoc in *. cbn [app] in *.
  lia.
Qed.

Lemma count_le_live n : forall s pos,
  (length s <= n)%nat ->
  len (findAllFrom countSpecPat 1 s pos 0)
  <= liveFrom (if (pos =? 0)%nat then None else Some "%"%char) s.
Proof.
  induction n as [|n IH]; intros s pos Hlen.
  - destruct s; [|cbn in Hlen; lia]. cbn [findAllFrom].
    destruct (matchAt countSpecPat 1 [] pos) as [m|] eqn:E;
      [|destruct (pos =? 0)%nat; cbn [liveFrom]; unfold len; cbn [length]; lia].
    apply countSpec_sound in E as (mods & letter & rest & _ & _ & [(c & _ & E & _)|(_ & E & _)]);
      discriminate.
  - destruct s as [|c s].
    { apply (IH [] pos). cbn. lia. }
    destruct (matchAt countSpecPat 1 (c :: s) pos) as [m|] eqn:E.
    + destruct (countSpec_sound _ _ _ E)
        as (mods & letter & rest & Hm & Hl & [(c' & Hc & Hs & He)|(Hp & Hs & He)]).
      * rewrite (findAllFrom_hit _ _ _ pos m (S (length (conversion mods letter))) E He).
        2:{ rewrite Hs. cbn [length]. rewrite length_app. lia. }
        rewrite Hs. cbn [drop]. rewrite drop_app_length.
        unfold len. cbn [length]. fold (len (findAllFrom countSpecPat 1 rest
          (pos + S (length (conversion mods letter))) 0)).
        specialize (IH rest (pos + S (length (conversion mods letter)))%nat).
        replace (pos + S (length (conversion mods letter)) =? 0)%nat with false in IH
          by (symmetry; apply Nat.eqb_neq; lia).
        assert (Hr : (length rest <= n)%nat).
        { rewrite Hs in Hlen. cbn [length] in Hlen. rewrite length_app in Hlen. lia. }
        specialize (IH Hr).
        pose proof (liveFrom_conv (Some c') mods letter rest Hm Hl Hc) as Hlive.
        rewrite liveFrom_cons. unfold len in IH. destruct (_ && _); lia.
      * subst pos. cbn [Nat.eqb].
        assert (Hpos : (1 <= length (conversion mods letter))%nat)
          by (unfold conversion; cbn [length]; lia).
        rewrite (findAllFrom_hit _ _ _ 0 m (length (conversion mods letter)) E He).
        2:{ rewrite Hs, length_app. lia. }
        rewrite Hs, drop_app_length.
        unfold len. cbn [length]. fold (len (findAllFrom countSpecPat 1 rest
          (0 + length (conversion mods letter)) 0)).
        specialize (IH rest (0 + length (conversion mods letter))%nat).
        replace (0 + length (conversion mods letter) =? 0)%nat with false in IH
          by (symmetry; apply Nat.eqb_neq; lia).
        assert (Hr : (length rest <= n)%nat).
        { rewrite Hs in Hlen. rewrite length_app in Hlen.
          unfold conversion in Hlen. cbn [length] in Hlen. lia. }
        specialize (IH Hr).
        pose proof (liveFrom_conv None mods letter rest Hm Hl eq_refl) as Hlive.
        unfold len in IH. lia.
    + rewrite findAllFrom_miss by exact E.
      specialize (IH s (S pos)). cbn [Nat.eqb] in IH.
      assert (Hr : (length s <= n)%nat) by (cbn in Hlen; lia).
      specialize (IH Hr). rewrite liveFrom_cons.
      pose proof (liveFrom_ge (Some c) s). destruct (_ && _); lia.
Qed.

(** X6: the number of directives that [countPrintFmtSpec] counts is
    never more than the number of live directives of the template,
    conversions that are not directly preceded by "%". *)
Theorem count_at_most_live (T : gostring) :
  0 <= countPrintFmtSpec T <= liveDirectives T.
Proof.
  split; [apply len_nonneg|].
  apply (count_le_live (length T) T 0). lia.
Qed.

End TemplateMore.

(** ** Decoding, records and the run of the program *)

Section ReadMore.

Ltac pow_const :=
  repeat match goal with
         | |- context [Z.pow ?a ?b] =>
             let v := eval vm_compute in (Z.pow a b) in
             progress change (Z.pow a b) with v
         | H : context [Z.pow ?a ?b] |- _ =>
             let v := eval vm_compute in (Z.pow a b) in
             progress change (Z.pow a b) with v in H
         end.

Lemma byte_bound (b : byte) : 0 <= Z.of_N (Byte.to_N b) < 256.
Proof. pose proof (Byte.to_N_bounded b). lia. Qed.

Lemma littleEndian_bounds bs : 0 <= littleEndian bs < 256 ^ Z.of_nat (length bs).
Proof.
  induction bs as [|b bs IH]; [cbn; lia|].
  cbn [littleEndian length]. rewrite Nat2Z.inj_succ, Z.pow_succ_r by lia.
  pose proof (byte_bound b). lia.
Qed.

Lemma to_N_inj (a b : byte) : Byte.to_N a = Byte.to_N b -> a = b.
Proof.
  intros H. pose proof (Byte.of_to_N a) as Ha.
  rewrite H, Byte.of_to_N in Ha. congruence.
Qed.

Lemma littleEndian_inj bs1 : forall bs2,
  length bs1 = length bs2 -> littleEndian bs1 = littleEndian bs2 -> bs1 = bs2.
Proof.
  induction bs1 as [|a bs1 IH]; intros [|b bs2] Hlen H; try discriminate;
    [reflexivity|].
  cbn [littleEndian] in H. pose proof (byte_bound a). pose proof (byte_bound b).
  assert (Z.of_N (Byte.to_N a) = Z.of_N (Byte.to_N b) /\
          littleEndian bs1 = littleEndian bs2) as [Hab Hr] by lia.
  f_equal; [apply to_N_inj; lia | apply IH; [cbn in Hlen; lia | exact Hr]].
Qed.

Lemma decode_spec t bs :
  t <> noType -> length bs = width t ->
  decode t bs mod 2 ^ (8 * byteWidth t) = littleEndian bs /\
  (if signed t
   then - 2 ^ (8 * byteWidth t - 1) <= decode t bs < 2 ^ (8 * byteWidth t - 1)
   else 0 <= decode t bs < 2 ^ (8 * byteWidth t)).
Proof.
  intros Ht Hlen. pose proof (littleEndian_bounds bs) as Hb. rewrite Hlen in Hb.
  destruct t; try congruence;
    cbv [decode toSigned byteWidth width signed] in *; pow_const;
    try match goal with
        | |- context [?a <? ?b] => destruct (Z.ltb_spec a b)
        end;
    (split; [|lia]);
    first [ apply Z.mod_small; lia
          | symmetry; apply (Z.mod_unique _ _ (-1)); lia ].
Qed.



(** X8: decoding loses nothing: two byte sequences of the width of a
    type that decode to the same value are the same bytes. *)
Theorem decode_injective t bs1 bs2 :
  t <> noType -> length bs1 = width t -> length bs2 = width t ->
  decode t bs1 = decode t bs2 -> bs1 = bs2.
Proof.
  intros Ht H1 H2 H. apply littleEndian_inj; [congruence|].
  rewrite <- (proj1 (decode_spec t bs1 Ht H1)), <- (proj1 (decode_spec t bs2 Ht H2)).
  now rewrite H.
Qed.

Lemma decode_injective_witness : [x80; x00; x00; x00] = [x80; x00; x00; x00].
Proof.
  apply (decode_injective U32 [x80; x00; x00; x00] [x80; x00; x00; x00]);
    [discriminate|reflexivity..].
Defined.

(** X9: on a stream that holds a whole record, [readData] takes exactly
    the bytes of the record and leaves the rest of the stream as it is,
    writes the decoded value of every field over [data], and returns the
    number of fields and no error. *)
Theorem readData_full_record fd chunks more fail g data :
  Forall (fun t => t <> noType) fd -> shaped fd chunks ->
  length data = length fd ->
  exists g',
    readData (mkReader (concat chunks ++ more) fail) g fd data
    = Ok (mkRead (mkReader more fail) g' (values fd chunks) (length fd) None).
Proof.
  intros Hvalid Hsh Hdata. unfold readData.
  destruct (readFields_full fail more fd chunks Hsh Hvalid 0%nat g data 0%nat)
    as (g' & Hrun); [lia|].
  exists g'. rewrite Hrun. cbn [Nat.add]. rewrite take_0, drop_ge by lia.
  cbn [app]. now rewrite app_nil_r.
Qed.

Lemma readData_full_record_witness :
  exists g',
    readData (mkReader (concat [[x01; x02]; [xff]] ++ [x07]) None) scratchInit
      [U16; I8] [INil; INil]
    = Ok (mkRead (mkReader [x07] None) g' (values [U16; I8] [[x01; x02]; [xff]])
            (length [U16; I8]) None).
Proof.
  apply (readData_full_record [U16; I8] [[x01; x02]; [xff]] [x07] None scratchInit
           [INil; INil]).
  - repeat constructor; discriminate.
  - repeat constructor.
  - reflexivity.
Defined.

Lemma readFields_no_room fail more t fdB fdA chunks :
  shaped fdA chunks -> Forall (fun t => t <> noType) fdA -> t <> noType ->
  forall i g data n0,
    (i + length fdA)%nat = length data ->
    readFields (fdA ++ t :: fdB) i
      (mkRead (mkReader (concat chunks ++ more) fail) g data n0 None)
    = Panic PanicIndexRange.
Proof.
  induction 1 as [|t' c fdA chunks Hc Hsh IH]; intros Hvalid Ht i g data n0 Hlen.
  - cbn [app readFields concat length] in *. rewrite readField_typed by exact Ht.
    cbn [rdReader rdScratch rdData rdN].
    destruct (readFull (mkReader more fail) (width t)) as [r [e|bs]];
      unfold setIndex;
      (destruct (Nat.ltb_spec i (length data)); [lia|reflexivity]).
  - inversion Hvalid as [|? ? Ht' Hvalid']; subst. cbn [length] in Hlen.
    cbn [app readFields concat]. rewrite readField_typed by exact Ht'.
    cbn [rdReader rdScratch rdData rdN]. rewrite <- app_assoc.
    rewrite readFull_enough by exact Hc.
    rewrite getScratch_set by exact Ht'.
    rewrite setIndex_in by lia. cbn [bind rdErr rdReader rdScratch rdData rdN].
    apply IH; [exact Hvalid'|exact Ht|]. rewrite length_insert. lia.
Qed.

(** X10: [readData] writes [data[i]] also after a read that failed, so
    with a [data] shorter than the layout it panics with an index out
    of range as soon as the fields that have a place in [data] were
    read, whatever the stream holds after them. *)
Theorem readData_short_data fd chunks more fail g data :
  Forall (fun t => t <> noType) fd ->
  (length data < length fd)%nat ->
  shaped (take (length data) fd) chunks ->
  readData (mkReader (concat chunks ++ more) fail) g fd data
  = Panic PanicIndexRange.
Proof.
  intros Hvalid Hlen Hsh. unfold readData.
  destruct (lookup_lt_is_Some_2 fd (length data) Hlen) as [t Ht].
  rewrite <- (take_drop_middle fd (length data) t Ht).
  rewrite <- (take_drop_middle fd (length data) t Ht) in Hvalid.
  apply Forall_app in Hvalid as [HvA HvB]. inversion HvB; subst.
  apply readFields_no_room; try assumption.
  rewrite length_take. lia.
Qed.

Lemma readData_short_data_witness :
  readData (mkReader (concat [[x01]] ++ []) None) scratchInit [U8; U8] [INil]
  = Panic PanicIndexRange.
Proof.
  apply (readData_short_data [U8; U8] [[x01]] [] None scratchInit [INil]).
  - repeat constructor; discriminate.
  - cbn. lia.
  - repeat constructor.
Defined.

Lemma fullRecords_closed opt sz pf fd recs : forall off cnt,
  fullRecords opt sz pf fd (Int.wrap off) (Int.wrap cnt) recs
  = concat (imap (fun i rec =>
                    printData opt (Int.wrap (off + Z.of_nat i * sz))
                      (Int.wrap (cnt + Z.of_nat i + 1)) pf (values fd rec)) recs).
Proof.
  induction recs as [|rec recs IH]; intros off cnt; [reflexivity|].
  cbn [fullRecords imap concat]. unfold Int.add at 1 2 3. rewrite !wrap_add_l.
  rewrite IH. f_equal.
  - do 2 f_equal; lia.
  - f_equal. apply imap_ext. intros i x _. cbn.
    do 2 f_equal; lia.
Qed.

Lemma offsetAfter_closed {A} sz (recs : list A) : forall off,
  offsetAfter sz (Int.wrap off) recs = Int.wrap (off + len recs * sz).
Proof.
  unfold offsetAfter.
  induction recs as [|rec recs IH]; intros off.
  - cbn [fold_left]. f_equal. unfold len. cbn [length]. lia.
  - cbn [fold_left]. unfold Int.add at 2. rewrite wrap_add_l, IH.
    f_equal. unfold len. cbn [length]. lia.
Qed.

(** X11: a stream that ends at a record boundary or inside the first
    field of a record is printed record by record: the record of index
    i, counted from 0, with the offset i times the record size and the
    record count i+1 (as 64-bit integers); then the final offset when
    offsets are shown; then the message that the data is not enough,
    only when bytes of a first field are left.  The exit status is 0. *)
Theorem stream_ending_before_a_record fuel opt t fd sz pf recs rest :
  printVersion opt = false -> setup opt = Ok (t :: fd, sz, pf) ->
  Forall (shaped (t :: fd)) recs -> (length rest < width t)%nat ->
  (length recs < fuel)%nat ->
  main fuel opt (Opened (mkReader (recordsBytes recs ++ rest) None))
  = Some (concat (imap (fun i rec =>
                          printData opt (Int.wrap (Z.of_nat i * sz))
                            (Int.wrap (Z.of_nat i + 1)) pf (values (t :: fd) rec))
                    recs) ++
          (if printOffset opt
           then [Printf (offsetFmt ++ newline) [IInt (Int.wrap (len recs * sz))]]
           else []) ++
          match rest with
          | [] => []
          | _ => [insufficientData]
          end, 0).
Proof.
  intros Hv Hsetup Hrecs Hrest Hfuel.
  pose proof (main_run fuel opt (t :: fd) sz pf None recs 0 t [] rest
                Hv Hsetup Hrecs eq_refl ltac:(constructor) Hrest Hfuel) as Hrun.
  cbn [concat app] in Hrun. rewrite Hrun. do 3 f_equal.
  - apply (fullRecords_closed opt sz pf (t :: fd) recs 0 0).
  - unfold afterLoop. cbn [Nat.eqb negb].
    change (offsetAfter sz 0 recs) with (offsetAfter sz (Int.wrap 0) recs).
    rewrite (offsetAfter_closed sz recs 0). cbn [Z.add].
    destruct rest; reflexivity.
Qed.

Lemma stream_ending_before_a_record_witness :
  main 3 (mkOptions true true false "S" [])
    (Opened (mkReader (recordsBytes [[[x01; x02]]; [[x03; x04]]] ++ [x05]) None))
  = Some (concat (imap (fun i rec =>
                          printData (mkOptions true true false "S" [])
                            (Int.wrap (Z.of_nat i * 2))
                            (Int.wrap (Z.of_nat i + 1)) ("%02x" ++ newline)
                            (values [U16] rec))
                    [[[x01; x02]]; [[x03; x04]]]) ++
          (if printOffset (mkOptions true true false "S" [])
           then [Printf (offsetFmt ++ newline)
                   [IInt (Int.wrap (len [[[x01; x02]]; [[x03; x04]]] * 2))]]
           else []) ++
          [insufficientData], 0).
Proof.
  apply (stream_ending_before_a_record 3 (mkOptions true true false "S" [])
           U16 [] 2 ("%02x" ++ newline) [[[x01; x02]]; [[x03; x04]]] [x05]).
  - reflexivity.
  - vm_compute. reflexivity.
  - repeat constructor.
  - cbn. lia.
  - cbn. lia.
Defined.

Lemma split_record fd :
  Forall (fun t => (1 <= width t)%nat) fd ->
  forall bs : list byte,
    (exists chunks more, shaped fd chunks /\ bs = concat chunks ++ more) \/
    (exists n t chunks rest,
        fd !! n = Some t /\ shaped (take n fd) chunks /\
        bs = concat chunks ++ rest /\ (length rest < width t)%nat).
Proof.
  induction 1 as [|t fd Ht Hfd IH]; intros bs.
  - left. exists [], bs. split; [constructor|reflexivity].
  - destruct (Nat.le_gt_cases (width t) (length bs)) as [Hle|Hgt].
    + destruct (IH (drop (width t) bs))
        as [(chunks & more & Hsh & Hbs)|(n & t' & chunks & rest & Hn & Hsh & Hbs & Hr)].
      * left. exists (take (width t) bs :: chunks), more. split.
        -- constructor; [|exact Hsh]. rewrite length_take. lia.
        -- cbn [concat]. rewrite <- app_assoc, <- Hbs. now rewrite take_drop.
      * right. exists (S n), t', (take (width t) bs :: chunks), rest.
        repeat split; try assumption.
        -- cbn [take]. constructor; [|exact Hsh]. rewrite length_take. lia.
        -- cbn [concat]. rewrite <- app_assoc, <- Hbs. now rewrite take_drop.
    + right. exists 0%nat, t, [], bs. repeat split; [constructor|exact Hgt].
Qed.

Lemma split_stream t0 fd0 :
  let fd := t0 :: fd0 in
  Forall (fun t => (1 <= width t)%nat) fd ->
  forall k (bs : list byte), (length bs <= k)%nat ->
    exists recs n t chunks rest,
      bs = recordsBytes recs ++ concat chunks ++ rest /\
      Forall (shaped fd) recs /\ fd !! n = Some t /\
      shaped (take n fd) chunks /\ (length rest < width t)%nat /\
      (length recs <= length bs)%nat.
Proof.
  intros fd Hw. induction k as [|k IH]; intros bs Hk;
    (destruct (split_record fd Hw bs)
      as [(chunks & more & Hsh & Hbs)|(n & t & chunks & rest & Hn & Hsh & Hbs & Hr)];
     [|exists [], n, t, chunks, rest; repeat split; try assumption;
       [constructor|cbn; lia]]).
  - exfalso. inversion Hsh as [|? c ? cs Hc Hsh']; subst.
    inversion Hw; subst. cbn [concat] in Hk. rewrite !length_app in Hk. lia.
  - assert (Hmore : (length more < length bs)%nat).
    { inversion Hsh as [|? c ? cs Hc Hsh']; subst.
      inversion Hw; subst. cbn [concat]. rewrite !length_app. lia. }
    destruct (IH more ltac:(lia))
      as (recs & n & t & chunks' & rest & Hbs' & Hrecs & Hn & Hsh' & Hr & Hl).
    exists (chunks :: recs), n, t, chunks', rest. repeat split; try assumption.
    + change (recordsBytes (chunks :: recs)) with (concat chunks ++ recordsBytes recs).
      rewrite <- app_assoc, <- Hbs'. exact Hbs.
    + constructor; assumption.
    + cbn [length]. lia.
Qed.

(** X12: with a layout that has a field, [main] ends on every finite
    stream, within one iteration per byte, and with exit status 0: the
    stream splits into whole records, the whole fields of one more
    record and fewer bytes than the next field needs, and [main] prints
    the records and then what follows the loop for the fields and the
    error of the last read. *)
Theorem main_ends_on_every_stream fuel opt fd sz pf bs fail :
  printVersion opt = false -> setup opt = Ok (fd, sz, pf) -> fd <> [] ->
  (length bs < fuel)%nat ->
  exists recs n t chunks rest,
    bs = recordsBytes recs ++ concat chunks ++ rest /\
    Forall (shaped fd) recs /\ fd !! n = Some t /\
    shaped (take n fd) chunks /\ (length rest < width t)%nat /\
    main fuel opt (Opened (mkReader bs fail))
    = Some (fullRecords opt sz pf fd 0 0 recs ++
            afterLoop opt pf (offsetAfter sz 0 recs) (countAfter 0 recs)
              (values (take n fd) chunks) n (endError fail rest), 0).
Proof.
  intros Hv Hsetup Hne Hfuel. destruct fd as [|t0 fd0]; [congruence|].
  pose proof (parse_no_noType _ _ _ (setup_layout _ _ _ _ Hsetup)) as Hvalid.
  assert (Hw : Forall (fun t => (1 <= width t)%nat) (t0 :: fd0)).
  { eapply Forall_impl; [exact Hvalid|]. intros t Ht.
    destruct t; cbn; congruence || lia. }
  destruct (split_stream t0 fd0 Hw (length bs) bs ltac:(lia))
    as (recs & n & t & chunks & rest & Hbs & Hrecs & Hn & Hsh & Hr & Hl).
  exists recs, n, t, chunks, rest. repeat split; try assumption.
  rewrite Hbs.
  apply (main_run fuel opt (t0 :: fd0) sz pf fail recs n t chunks rest);
    try assumption. lia.
Qed.

Lemma main_ends_on_every_stream_witness :
  exists recs n t chunks rest,
    [x01; x02; x03; x04; x05] = recordsBytes recs ++ concat chunks ++ rest /\
    Forall (shaped [U8; U8]) recs /\ [U8; U8] !! n = Some t /\
    shaped (take n [U8; U8]) chunks /\ (length rest < width t)%nat /\
    main 6 (layoutC2 []) (Opened (mkReader [x01; x02; x03; x04; x05] None))
    = Some (fullRecords (layoutC2 []) 2 templateC2 [U8; U8] 0 0 recs ++
            afterLoop (layoutC2 []) templateC2 (offsetAfter 2 0 recs)
              (countAfter 0 recs) (values (take n [U8; U8]) chunks) n
              (endError None rest), 0).
Proof.
  apply (main_ends_on_every_stream 6 (layoutC2 []) [U8; U8] 2 templateC2
           [x01; x02; x03; x04; x05] None).
  - reflexivity.
  - vm_compute. reflexivity.
  - discriminate.
  - cbn. lia.
Defined.

(** X13: with a layout of no field and a template whose directive count
    is 0, the loop of [main] never ends: [readData] reads nothing and
    returns no error, so whatever the stream and however many iterations
    are allowed, the run is not over. *)
Theorem empty_layout_never_ends opt sz pf :
  printVersion opt = false -> setup opt = Ok ([], sz, pf) ->
  forall fuel r, main fuel opt (Opened r) = None.
Proof.
  intros Hv Hsetup fuel r. unfold main. rewrite Hv, Hsetup.
  now rewrite empty_layout_loops.
Qed.

Lemma empty_layout_never_ends_witness :
  main 1000 (mkOptions false false false [] "no field")
    (Opened (mkReader [x01; x02] None)) = None.
Proof.
  apply (empty_layout_never_ends (mkOptions false false false [] "no field")
           0 ("no field" ++ newline)).
  - reflexivity.
  - vm_compute. reflexivity.
Defined.

End ReadMore.

(** ** Bad counts, wrapping counts and the exact directive count *)

Section CountMore.

Lemma lit_last (P : gostring) :
  forallb (fun c => negb (isByte "%" c)) P = true -> last P <> Some "%"%char.
Proof.
  destruct P as [|c P] using rev_ind; [discriminate|].
  rewrite forallb_app, last_snoc. cbn [forallb]. rewrite andb_true_r.
  intros [_ H]%andb_prop [= ->]. discriminate.
Qed.

Lemma separatorOf_nonempty sep : separatorOf sep <> [].
Proof. destruct sep; discriminate. Qed.

Lemma repeatWithSep_zero (rep sep : gostring) :
  sep <> [] -> repeatWithSep rep sep 0 = Panic PanicSliceBounds.
Proof.
  intros Hsep. unfold repeatWithSep, stringsRepeat. cbn [Z.ltb Z.compare].
  rewrite Z.mul_0_r. cbn. unfold sliceTo.
  destruct sep as [|c sep]; [congruence|].
  change (len []) with 0. unfold len. cbn [length].
  destruct (Z.ltb_spec (0 - Z.of_nat (S (length sep))) 0); [reflexivity|lia].
Qed.

(** X14: a repeat shorthand with a bad count makes the expansion panic.
    For a template that begins with text without "%" and then has a
    shorthand: a count of 0 slices before the start of the empty
    repetition; a count above the largest int is refused by
    [strconv.Atoi]; a count whose expansion is longer than a string can
    be is refused by [strings.Repeat]. *)
Theorem bad_count_panics (P R mods : gostring) (letter : ascii) (sep digits : gostring) :
  forallb (fun c => negb (isByte "%" c)) P = true ->
  forallb (fun c => negb (inSet "cdxo%" c)) mods = true ->
  inSet "cdxo" letter = true ->
  forallb (fun c => negb (isDigit c)) sep = true ->
  digits <> [] -> forallb isDigit digits = true ->
  let conv := conversion mods letter in
  let T := P ++ conv ++ sep ++ digits ++ "#"%char :: R in
  (decimal digits = 0 -> processPrintFmt T = Panic PanicSliceBounds) /\
  (Int.max < decimal digits -> processPrintFmt T = Panic (PanicAtoi digits)) /\
  (decimal digits <= Int.max ->
   Int.max < (len conv + len (separatorOf sep)) * decimal digits ->
   processPrintFmt T = Panic PanicRepeatCount).
Proof.
  intros HP Hm Hl Hs Hne Hd conv T.
  set (p1 := (length P + length conv)%nat).
  set (p2 := (p1 + length sep)%nat).
  set (p3 := (p2 + length digits)%nat).
  set (m := mkMatch (length P) (S p3)
              [None; Some (length P, p1); Some (p1, p2); Some (p2, p3)]).
  set (occ := conv ++ sep ++ digits ++ "#"%char :: R).
  assert (Hhit : matchAt printSpecPat 3 occ (length P) = Some m)
    by (now apply printSpec_hit).
  assert (Hfind : findAll printSpecPat 3 T
                  = m :: findAllFrom printSpecPat 3
                           (drop (S p3 - length P) occ)
                           (length P + (S p3 - length P)) 0).
  { unfold findAll, T. fold occ. rewrite lit_skip by exact HP. cbn [Nat.add].
    apply findAllFrom_hit; [exact Hhit|cbn [mend m]; lia|].
    subst occ p3 p2 p1 conv. unfold conversion. rewrite !length_app.
    cbn [length]. rewrite !length_app. cbn [length]. lia. }
  assert (Hesc : escaped T m = false)
    by (apply not_escaped; [reflexivity|now apply lit_last]).
  destruct (pieces_of P R mods letter sep digits) as (G1 & G2 & G3).
  cbv zeta in G1, G2, G3. fold conv T p1 p2 p3 m in G1, G2, G3.
  assert (Hrun : forall p,
             (match strconvAtoi digits with
              | None => Panic (PanicAtoi digits)
              | Some cnt =>
                  try e <- repeatWithSep conv (separatorOf sep) cnt in
                  Ok (([] ++ substr T 0 (mstart m)) ++ e, mend m)
              end = Panic p) ->
             processPrintFmt T = Panic p).
  { intros p Hp. unfold processPrintFmt. rewrite Hfind. cbn [processMatches].
    rewrite processMatch_expand by exact Hesc. rewrite G1, G2, G3, Hp.
    reflexivity. }
  repeat split.
  - intros H0. apply Hrun.
    rewrite strconvAtoi_digits by (auto; rewrite H0; unfold Int.max; lia).
    rewrite H0, repeatWithSep_zero by apply separatorOf_nonempty. reflexivity.
  - intros Hbig. apply Hrun. unfold strconvAtoi.
    destruct digits as [|d ds]; [congruence|]. rewrite Hd.
    destruct (Z.leb_spec (decimal (d :: ds)) Int.max); [lia|reflexivity].
  - intros Hfit Hbig. apply Hrun.
    rewrite strconvAtoi_digits by auto.
    unfold repeatWithSep, stringsRepeat. rewrite len_app.
    assert (H0 : 0 <= decimal digits).
    { pose proof (len_nonneg conv). pose proof (len_nonneg (separatorOf sep)).
      pose proof (conversion_len mods letter). fold conv in H1. nia. }
    destruct (Z.ltb_spec (decimal digits) 0); [lia|].
    destruct (Z.ltb_spec Int.max ((len conv + len (separatorOf sep)) * decimal digits));
      [reflexivity|lia].
Qed.

Lemma bad_count_panics_witness :
  (decimal "0" = 0 ->
   processPrintFmt ("a " ++ conversion "02" "x" ++ ", " ++ "0" ++ "#"%char :: " b")
   = Panic PanicSliceBounds) /\
  (Int.max < decimal "0" ->
   processPrintFmt ("a " ++ conversion "02" "x" ++ ", " ++ "0" ++ "#"%char :: " b")
   = Panic (PanicAtoi "0")) /\
  (decimal "0" <= Int.max ->
   Int.max < (len (conversion "02" "x") + len (separatorOf ", ")) * decimal "0" ->
   processPrintFmt ("a " ++ conversion "02" "x" ++ ", " ++ "0" ++ "#"%char :: " b")
   = Panic PanicRepeatCount).
Proof.
  apply (bad_count_panics "a " " b" "02" "x" ", " "0");
    solve [reflexivity | discriminate].
Defined.

Lemma wrap_mul_l a b : Int.wrap (Int.wrap a * b) = Int.wrap (a * b).
Proof.
  unfold Int.wrap. f_equal.
  pose proof (Z.div_mod (a + 2 ^ 63) (2 ^ 64) ltac:(lia)) as E.
  set (q := (a + 2 ^ 63) / 2 ^ 64) in *. set (r := (a + 2 ^ 63) mod 2 ^ 64) in *.
  replace (a * b + 2 ^ 63) with ((r - 2 ^ 63) * b + 2 ^ 63 + (q * b) * 2 ^ 64) by nia.
  now rewrite Z_mod_plus_full.
Qed.

Lemma parseLoop_digits_wrap ds : forall r0 st,
  forallb isDigit ds = true -> typeId (prevDesc st) <> noType ->
  repeatNum st = Int.wrap r0 ->
  parseLoop st ds
  = Ok (mkParse (formatDesc st) (recSize st)
          (Int.wrap (accDigits r0 ds)) (prevDesc st)).
Proof.
  induction ds as [|b ds IH]; intros r0 st Hd Hp Hr.
  - destruct st; cbn in *. now subst.
  - cbn [forallb] in Hd. apply andb_prop in Hd as [Hb Hd].
    cbn [parseLoop]. rewrite parseStep_digit by assumption. cbn [bind].
    rewrite (IH (r0 * 10 + digitVal b)); [reflexivity|exact Hd|exact Hp|].
    cbn [repeatNum]. rewrite Hr. unfold Int.wrap at 1.
    fold (Int.wrap (Int.wrap r0 * 10 + digitVal b)).
    now rewrite <- wrap_add_l, wrap_mul_l, wrap_add_l.
Qed.

(** X15: a repeat count is accumulated in a 64-bit int and wraps
    around.  A letter followed by any run of digits compiles, with k the
    decimal value of the digits taken as a signed 64-bit integer, to the
    field of the letter followed by k-1 more (none when k-1 is not
    positive), and to a record size of k times the size of the type, as
    a 64-bit integer, also when k is negative; for k = 0 the record size
    is the size of the type. *)
Theorem count_wraps_around (l : ascii) (d : intDesc) (ds : gostring) :
  descCharMap l = Some d -> forallb isDigit ds = true ->
  let k := Int.wrap (decimal ds) in
  parseBinaryFmtSpec (l :: ds)
  = Ok (typeId d :: repeat (typeId d) (Z.to_nat (Int.sub k 1)),
        if k =? 0 then size d else Int.wrap (k * size d)).
Proof.
  intros Hl Hd k. unfold parseBinaryFmtSpec. cbn [parseLoop].
  rewrite (parseStep_letter _ _ _ Hl). cbn [bind].
  change (parseFinish parseInit) with (@nil intType, 0). cbn [fst snd app].
  rewrite (parseLoop_digits_wrap ds 0);
    [|exact Hd|exact (proj1 (descCharMap_valid _ _ Hl))|reflexivity].
  cbn [bind formatDesc recSize prevDesc]. unfold parseFinish, appendTimes.
  cbn [formatDesc recSize repeatNum prevDesc app].
  change (accDigits 0 ds) with (decimal ds). fold k.
  assert (Hsz : Int.add 0 (size d) = size d).
  { unfold Int.add. apply wrap_small.
    destruct (descCharMap_valid _ _ Hl) as (_ & _ & Hsize & _).
    unfold Int.min, Int.max. lia. }
  rewrite Hsz. do 2 f_equal.
  destruct (k =? 0); [reflexivity|].
  unfold Int.add, Int.mul, Int.sub.
  rewrite wrap_mul_l, wrap_add_r. f_equal. lia.
Qed.

Lemma count_wraps_around_witness :
  parseBinaryFmtSpec ("C"%char :: "9223372036854775809")
  = Ok (U8 :: repeat U8
                (Z.to_nat (Int.sub (Int.wrap (decimal "9223372036854775809")) 1)),
        if Int.wrap (decimal "9223372036854775809") =? 0 then 1
        else Int.wrap (Int.wrap (decimal "9223372036854775809") * 1)).
Proof.
  apply (count_wraps_around "C" (mkDesc U8 1) "9223372036854775809"); reflexivity.
Defined.

End CountMore.

(** ** When the directive count is exact *)

Section ExactCount.

Lemma specStr_hit {R} mods letter rest pos cs
    (k : gostring -> nat -> captures -> option R) res :
  forallb (fun c => negb (inSet "cdxo%" c)) mods = true ->
  inSet "cdxo" letter = true ->
  k rest (pos + length (conversion mods letter))%nat cs = Some res ->
  exec specStr (conversion mods letter ++ rest) pos cs k = Some res.
Proof.
  intros Hm Hl Hk. unfold specStr, conversion. cbn [exec app].
  change (isByte "%" "%") with true. cbn match. rewrite <- app_assoc.
  apply starLoop_greedy; [exact Hm| |].
  { cbn [app]. unfold stops. rewrite (inSet_cdxo_pct _ Hl). reflexivity. }
  cbn [app]. rewrite Hl. rewrite <- Hk. f_equal.
  unfold conversion. cbn [length]. rewrite length_app. cbn [length]. lia.
Qed.

Lemma countSpec_hit_inner c mods letter rest pos :
  isByte "%" c = false ->
  forallb (fun c => negb (inSet "cdxo%" c)) mods = true ->
  inSet "cdxo" letter = true ->
  matchAt countSpecPat 1 (c :: conversion mods letter ++ rest) pos <> None.
Proof.
  intros Hc Hm Hl. unfold matchAt, countSpecPat. cbn [exec]. rewrite Hc. cbn [negb].
  erewrite specStr_hit; [discriminate|exact Hm|exact Hl|reflexivity].
Qed.

Lemma countSpec_hit_start mods letter rest :
  forallb (fun c => negb (inSet "cdxo%" c)) mods = true ->
  inSet "cdxo" letter = true ->
  matchAt countSpecPat 1 (conversion mods letter ++ rest) 0 <> None.
Proof.
  intros Hm Hl. unfold matchAt, countSpecPat. cbn [exec Nat.eqb].
  unfold conversion at 1. cbn [app]. change (isByte "%" "%") with true. cbn [negb].
  change ("%"%char :: (mods ++ [letter]) ++ rest)
    with (conversion mods letter ++ rest).
  erewrite specStr_hit; [discriminate|exact Hm|exact Hl|reflexivity].
Qed.

Lemma inSet_pct_split c : inSet "cdxo%" c = inSet "cdxo" c || isByte "%" c.
Proof.
  unfold inSet, isByte. cbn.
  repeat match goal with
         | |- context [Ascii.eqb c ?x] => destruct (Ascii.eqb c x)
         end; reflexivity.
Qed.

Lemma directiveBody_split s :
  directiveBody s = true ->
  exists mods letter rest,
    s = mods ++ letter :: rest /\
    forallb (fun c => negb (inSet "cdxo%" c)) mods = true /\
    inSet "cdxo" letter = true.
Proof.
  induction s as [|c s IH]; [discriminate|]. cbn [directiveBody].
  destruct (inSet "cdxo" c) eqn:E1.
  - intros _. exists [], c, s. auto.
  - destruct (isByte "%" c) eqn:E2; [discriminate|].
    intros (mods & letter & rest & -> & Hm & Hl)%IH.
    exists (c :: mods), letter, rest. repeat split; [|exact Hl].
    cbn [forallb]. rewrite Hm, andb_true_r.
    now rewrite inSet_pct_split, E1, E2.
Qed.

Lemma directiveAt_split s :
  directiveAt s = true ->
  exists mods letter rest,
    s = conversion mods letter ++ rest /\
    forallb (fun c => negb (inSet "cdxo%" c)) mods = true /\
    inSet "cdxo" letter = true.
Proof.
  destruct s as [|c s]; [discriminate|]. cbn [directiveAt].
  intros [Hc Hb]%andb_prop. apply Ascii.eqb_eq in Hc. subst c.
  destruct (directiveBody_split s Hb) as (mods & letter & rest & -> & Hm & Hl).
  exists mods, letter, rest. repeat split; try assumption.
  unfold conversion. cbn [app]. now rewrite <- app_assoc.
Qed.

Lemma letter_not_pct letter : inSet "cdxo" letter = true -> isByte "%" letter = false.
Proof.
  intros H. unfold isByte. destruct (Ascii.eqb_spec letter "%") as [->|]; [|reflexivity].
  discriminate.
Qed.

Lemma mod_not_pct c : negb (inSet "cdxo%" c) = true -> isByte "%" c = false.
Proof.
  intros H. unfold isByte. destruct (Ascii.eqb_spec c "%") as [->|]; [|reflexivity].
  discriminate.
Qed.

Lemma mod_not_letter c : negb (inSet "cdxo%" c) = true -> inSet "cdxo" c = false.
Proof.
  intros H. destruct (inSet "cdxo" c) eqn:E; [|reflexivity].
  apply inSet_cdxo_pct in E. rewrite E in H. discriminate.
Qed.

Lemma liveFrom_skip mods letter rest : forall prev,
  forallb (fun c => negb (inSet "cdxo%" c)) mods = true ->
  inSet "cdxo" letter = true ->
  liveFrom prev (mods ++ letter :: rest) = liveFrom (Some letter) rest.
Proof.
  induction mods as [|c mods IH]; intros prev Hm Hl.
  - cbn [app]. rewrite liveFrom_cons. cbn [directiveAt].
    now rewrite (letter_not_pct _ Hl).
  - cbn [forallb] in Hm. apply andb_prop in Hm as [Hc Hm].
    cbn [app]. rewrite liveFrom_cons. cbn [directiveAt].
    rewrite (mod_not_pct _ Hc). cbn [andb]. now rewrite IH.
Qed.

Lemma afterBody_conv mods letter rest :
  forallb (fun c => negb (inSet "cdxo%" c)) mods = true ->
  inSet "cdxo" letter = true ->
  afterBody (mods ++ letter :: rest) = Some rest.
Proof.
  intros Hm Hl. induction mods as [|c mods IH]; cbn [app afterBody].
  - now rewrite Hl.
  - cbn [forallb] in Hm. apply andb_prop in Hm as [Hc Hm].
    rewrite (mod_not_letter _ Hc), (mod_not_pct _ Hc). now apply IH.
Qed.

Lemma spaced_tail c s : spaced (c :: s) = true -> spaced s = true.
Proof. cbn [spaced]. now intros [_ H]%andb_prop. Qed.

Lemma spaced_drop l : forall s, spaced (l ++ s) = true -> spaced s = true.
Proof.
  induction l as [|c l IH]; intros s H; [exact H|].
  apply IH. now apply spaced_tail in H.
Qed.

Lemma spaced_conv mods letter rest :
  forallb (fun c => negb (inSet "cdxo%" c)) mods = true ->
  inSet "cdxo" letter = true ->
  spaced (conversion mods letter ++ rest) = true ->
  directiveAt rest = false /\ spaced rest = true.
Proof.
  intros Hm Hl H. split; [|now apply spaced_drop in H].
  unfold conversion in H. cbn [app spaced] in H.
  change (isByte "%" "%") with true in H. cbn match in H.
  rewrite <- app_assoc in H. cbn [app] in H.
  rewrite (afterBody_conv _ _ _ Hm Hl) in H.
  apply andb_prop in H as [H _].
  destruct rest as [|c' rest]; [reflexivity|]. cbn [directiveAt].
  apply negb_true_iff in H. now rewrite H.
Qed.

Lemma liveFrom_after_conv mods letter rest :
  forallb (fun c => negb (inSet "cdxo%" c)) mods = true ->
  inSet "cdxo" letter = true ->
  directiveAt rest = false ->
  liveFrom (Some "%"%char) (conversion mods letter ++ rest)
  = liveFrom (Some "%"%char) rest.
Proof.
  intros Hm Hl Hr. unfold conversion. cbn [app]. rewrite liveFrom_cons.
  change (isByte "%" "%") with true. cbn [negb]. rewrite andb_false_r.
  rewrite <- app_assoc. cbn [app]. rewrite (liveFrom_skip _ _ _ _ Hm Hl).
  rewrite (liveFrom_head (Some letter)), Hr. reflexivity.
Qed.

Lemma count_eq_live n : forall s pos,
  (length s <= n)%nat -> spaced s = true ->
  len (findAllFrom countSpecPat 1 s pos 0)
  = liveFrom (if (pos =? 0)%nat then None else Some "%"%char) s.
Proof.
  induction n as [|n IH]; intros s pos Hlen Hsp.
  - destruct s; [|cbn in Hlen; lia]. cbn [findAllFrom].
    destruct (matchAt countSpecPat 1 [] pos) as [m|] eqn:E;
      [|destruct (pos =? 0)%nat; reflexivity].
    apply countSpec_sound in E
      as (mods & letter & rest & _ & _ & [(c & _ & E & _)|(_ & E & _)]);
      discriminate.
  - destruct s as [|c s].
    { apply (IH [] pos); [cbn; lia|reflexivity]. }
    destruct (matchAt countSpecPat 1 (c :: s) pos) as [m|] eqn:E.
    + destruct (countSpec_sound _ _ _ E)
        as (mods & letter & rest & Hm & Hl & [(c' & Hc & Hs & He)|(Hp & Hs & He)]).
      * rewrite (findAllFrom_hit _ _ _ pos m (S (length (conversion mods letter))) E He).
        2:{ rewrite Hs. cbn [length]. rewrite length_app. lia. }
        rewrite Hs in Hsp |- *. cbn [drop]. rewrite drop_app_length.
        destruct (spaced_conv mods letter rest Hm Hl (spaced_tail _ _ Hsp))
          as [Hdir Hsp'].
        pose proof (IH rest (pos + S (length (conversion mods letter)))%nat) as IHr.
        replace (pos + S (length (conversion mods letter)) =? 0)%nat with false in IHr
          by (symmetry; apply Nat.eqb_neq; lia).
        assert (Hr : (length rest <= n)%nat).
        { rewrite Hs in Hlen. cbn [length] in Hlen. rewrite length_app in Hlen. lia. }
        specialize (IHr Hr Hsp'). unfold len in IHr |- *. cbn [length].
        rewrite Nat2Z.inj_succ, IHr.
        assert (Hd : directiveAt (conversion mods letter ++ rest) = true).
        { unfold conversion. cbn [app directiveAt].
          change (isByte "%" "%") with true. cbn [andb].
          rewrite <- app_assoc. cbn [app]. now apply directiveBody_conv. }
        rewrite liveFrom_cons.
        change (directiveAt (c' :: conversion mods letter ++ rest))
          with (isByte "%" c' && directiveBody (conversion mods letter ++ rest)).
        rewrite Hc. cbn [andb].
        rewrite (liveFrom_head (Some c')), Hc, Hd. cbn [andb negb].
        rewrite (liveFrom_after_conv mods letter rest Hm Hl Hdir). lia.
      * subst pos. cbn [Nat.eqb].
        assert (Hpos : (1 <= length (conversion mods letter))%nat)
          by (unfold conversion; cbn [length]; lia).
        rewrite (findAllFrom_hit _ _ _ 0 m (length (conversion mods letter)) E He).
        2:{ rewrite Hs, length_app. lia. }
        rewrite Hs in Hsp |- *. rewrite drop_app_length.
        destruct (spaced_conv mods letter rest Hm Hl Hsp) as [Hdir Hsp'].
        pose proof (IH rest (0 + length (conversion mods letter))%nat) as IHr.
        replace (0 + length (conversion mods letter) =? 0)%nat with false in IHr
          by (symmetry; apply Nat.eqb_neq; lia).
        assert (Hr : (length rest <= n)%nat).
        { rewrite Hs in Hlen. rewrite length_app in Hlen.
          unfold conversion in Hlen. cbn [length] in Hlen. lia. }
        specialize (IHr Hr Hsp'). unfold len in IHr |- *. cbn [length].
        rewrite Nat2Z.inj_succ, IHr.
        rewrite (liveFrom_head None).
        assert (Hd : directiveAt (conversion mods letter ++ rest) = true).
        { unfold conversion. cbn [app directiveAt].
          change (isByte "%" "%") with true. cbn [andb].
          rewrite <- app_assoc. cbn [app]. now apply directiveBody_conv. }
        rewrite Hd. cbn [andb negb].
        rewrite (liveFrom_after_conv mods letter rest Hm Hl Hdir). lia.
    + rewrite findAllFrom_miss by exact E.
      rewrite (IH s (S pos)); [|cbn in Hlen; lia|now apply spaced_tail in Hsp].
      cbn [Nat.eqb]. rewrite liveFrom_cons.
      assert (H1 : directiveAt (c :: s) &&
                   negb match (if (pos =? 0)%nat then None else Some "%"%char) with
                        | Some b => isByte "%" b
                        | None => false
                        end = false).
      { destruct (pos =? 0)%nat eqn:Ep; [|apply andb_false_r].
        apply Nat.eqb_eq in Ep. subst pos. rewrite andb_true_r.
        destruct (directiveAt (c :: s)) eqn:Ed; [|reflexivity].
        destruct (directiveAt_split _ Ed) as (mods & letter & rest & Hs & Hm & Hl).
        rewrite Hs in E. now apply countSpec_hit_start in E. }
      rewrite H1. rewrite (liveFrom_head (Some c)).
      assert (H2 : directiveAt s && negb (isByte "%" c) = false).
      { destruct (isByte "%" c) eqn:Ec; [apply andb_false_r|].
        rewrite andb_true_r.
        destruct (directiveAt s) eqn:Ed; [|reflexivity].
        destruct (directiveAt_split _ Ed) as (mods & letter & rest & Hs & Hm & Hl).
        rewrite Hs in E. now apply countSpec_hit_inner in E. }
      rewrite H2. lia.
Qed.

(** X16: when no conversion of the template is directly followed by a
    "%", the count of [countPrintFmtSpec] is exact: it is the number of
    live directives, the conversions that are not directly preceded by
    "%". *)
Theorem count_exact_when_spaced (T : gostring) :
  spaced T = true -> countPrintFmtSpec T = liveDirectives T.
Proof.
  intros H. apply (count_eq_live (length T) T 0); [lia|exact H].
Qed.

Lemma count_exact_when_spaced_witness :
  countPrintFmtSpec "%04d: %%x %02x, %-3o" = liveDirectives "%04d: %%x %02x, %-3o".
Proof. apply count_exact_when_spaced. reflexivity. Defined.

End ExactCount.

(** ** What the default template prints *)

Section DefaultOutput.

Lemma fmt_hex_byte (b : byte) :
  fmtInteger true false (Some 2) "x" (Z.of_N (Byte.to_N b)) = hexByte b.
Proof. destruct b; vm_compute; reflexivity. Qed.

Lemma decode_U8 (b : byte) : decode U8 [b] = Z.of_N (Byte.to_N b).
Proof. cbn [decode littleEndian]. lia. Qed.

Lemma sprintf_hex_step rest t v args out :
  sprintfLoop (hexSpec ++ rest) InText (IVal t v :: args) out
  = sprintfLoop rest InText args (out ++ fmtInteger true false (Some 2) "x" v).
Proof. reflexivity. Qed.

Lemma sprintf_space_step rest args out :
  sprintfLoop (" " ++ rest) InText args out
  = sprintfLoop rest InText args (out ++ " ").
Proof. reflexivity. Qed.

Lemma sprintf_hex_tail (bs : list byte) : forall out,
  sprintfLoop (concat (repeat (" " ++ hexSpec) (length bs)) ++ newline) InText
    (values (repeat U8 (length bs)) (map (fun b => [b]) bs)) out
  = Some (out ++ concat (map (fun b => " " ++ hexByte b) bs) ++ newline).
Proof.
  induction bs as [|b bs IH]; intros out.
  - cbn. now rewrite app_nil_r.
  - cbn [length repeat concat map values zip_with].
    rewrite <- !app_assoc. rewrite sprintf_space_step, sprintf_hex_step.
    fold (values (repeat U8 (length bs)) (map (fun b => [b]) bs)).
    rewrite IH, decode_U8, fmt_hex_byte. f_equal.
    now rewrite <- !app_assoc.
Qed.

(** X17: with the default template, a record of one-byte unsigned
    fields is printed as its bytes in two lower-case hex digits each,
    separated by single spaces, and a newline. *)
Theorem default_record_is_hex (bs : list byte) :
  bs <> [] ->
  render (Printf (defaultTemplate (length bs) ++ newline)
            (values (repeat U8 (length bs)) (map (fun b => [b]) bs)))
  = Some (joinWith " " (map hexByte bs) ++ newline).
Proof.
  destruct bs as [|b bs]; [congruence|]. intros _.
  cbn [render length]. rewrite defaultTemplate_S. unfold sprintf.
  cbn [repeat map values zip_with]. rewrite <- app_assoc.
  rewrite sprintf_hex_step.
  fold (values (repeat U8 (length bs)) (map (fun b => [b]) bs)).
  rewrite sprintf_hex_tail, decode_U8, fmt_hex_byte. cbn [app joinWith].
  now rewrite map_map, <- app_assoc.
Qed.

Lemma default_record_is_hex_witness :
  render (Printf (defaultTemplate (length [x00; x7f; xff]) ++ newline)
            (values (repeat U8 (length [x00; x7f; xff]))
               (map (fun b => [b]) [x00; x7f; xff])))
  = Some (joinWith " " (map hexByte [x00; x7f; xff]) ++ newline).
Proof. apply default_record_is_hex. discriminate. Defined.

End DefaultOutput.

(** ** The directive count of an expanded shorthand *)

Section ShorthandCount.

Lemma conv_no_pct mods letter :
  forallb (fun c => negb (inSet "cdxo%" c)) mods = true ->
  inSet "cdxo" letter = true ->
  forallb (fun c => negb (isByte "%" c)) (mods ++ [letter]) = true.
Proof.
  intros Hm Hl. rewrite forallb_app. cbn [forallb].
  rewrite (letter_not_pct _ Hl). cbn [negb andb]. rewrite andb_true_r.
  apply forallb_forall. intros c Hc.
  rewrite forallb_forall in Hm. now rewrite (mod_not_pct _ (Hm c Hc)).
Qed.

Lemma spaced_lit l s :
  forallb (fun c => negb (isByte "%" c)) l = true -> spaced (l ++ s) = spaced s.
Proof.
  induction l as [|c l IH]; intros H; [reflexivity|].
  cbn [forallb] in H. apply andb_prop in H as [Hc H].
  cbn [app spaced]. apply negb_true_iff in Hc. rewrite Hc. now apply IH.
Qed.

Lemma spaced_conv_in mods letter s :
  forallb (fun c => negb (inSet "cdxo%" c)) mods = true ->
  inSet "cdxo" letter = true -> stops (isByte "%") s ->
  spaced (conversion mods letter ++ s) = spaced s.
Proof.
  intros Hm Hl Hs. unfold conversion. cbn [app spaced].
  change (isByte "%" "%") with true. cbn match.
  rewrite <- app_assoc. cbn [app]. rewrite (afterBody_conv _ _ _ Hm Hl).
  replace (mods ++ letter :: s) with ((mods ++ [letter]) ++ s)
    by (now rewrite <- app_assoc).
  rewrite spaced_lit by now apply conv_no_pct.
  destruct s as [|c s]; [reflexivity|]. cbn in Hs. now rewrite Hs.
Qed.

Lemma live_np prev s :
  match prev with Some b => isByte "%" b | None => false end = false ->
  liveFrom prev s = liveFrom None s.
Proof. intros H. rewrite (liveFrom_head prev), (liveFrom_head None), H. reflexivity. Qed.

Lemma live_lit l : forall prev s,
  forallb (fun c => negb (isByte "%" c)) l = true ->
  match prev with Some b => isByte "%" b | None => false end = false ->
  liveFrom prev (l ++ s) = liveFrom None s.
Proof.
  induction l as [|c l IH]; intros prev s H Hp; [now apply live_np|].
  cbn [forallb] in H. apply andb_prop in H as [Hc H]. apply negb_true_iff in Hc.
  cbn [app]. rewrite liveFrom_cons. cbn [directiveAt]. rewrite Hc. cbn [andb].
  now apply IH.
Qed.

Lemma live_conv prev mods letter s :
  forallb (fun c => negb (inSet "cdxo%" c)) mods = true ->
  inSet "cdxo" letter = true ->
  match prev with Some b => isByte "%" b | None => false end = false ->
  liveFrom prev (conversion mods letter ++ s) = 1 + liveFrom None s.
Proof.
  intros Hm Hl Hp. rewrite (liveFrom_head prev), Hp.
  assert (Hd : directiveAt (conversion mods letter ++ s) = true).
  { unfold conversion. cbn [app directiveAt].
    change (isByte "%" "%") with true. cbn [andb].
    rewrite <- app_assoc. cbn [app]. now apply directiveBody_conv. }
  rewrite Hd. cbn [andb negb]. f_equal.
  unfold conversion. cbn [app]. rewrite liveFrom_cons.
  change (isByte "%" "%") with true. cbn [negb]. rewrite andb_false_r.
  rewrite <- app_assoc. cbn [app]. rewrite (liveFrom_skip _ _ _ _ Hm Hl).
  apply live_np. now apply letter_not_pct.
Qed.

Lemma lit_stops l s :
  forallb (fun c => negb (isByte "%" c)) l = true -> l <> [] ->
  stops (isByte "%") (l ++ s).
Proof.
  destruct l as [|c l]; [congruence|]. cbn [forallb app stops].
  intros [H _]%andb_prop _. now apply negb_true_iff in H.
Qed.

Lemma expansion_tail sepv mods letter post k :
  forallb (fun c => negb (isByte "%" c)) sepv = true -> sepv <> [] ->
  forallb (fun c => negb (inSet "cdxo%" c)) mods = true ->
  inSet "cdxo" letter = true ->
  forallb (fun c => negb (isByte "%" c)) post = true ->
  let tail := concat (repeat (sepv ++ conversion mods letter) k) ++ post in
  spaced tail = true /\ liveFrom None tail = Z.of_nat k /\ stops (isByte "%") tail.
Proof.
  intros Hsep Hne Hm Hl Hpost. induction k as [|k (IH1 & IH2 & IH3)]; cbv zeta.
  - cbn [repeat concat app]. repeat split.
    + rewrite <- (app_nil_r post). now rewrite spaced_lit.
    + rewrite <- (app_nil_r post). now rewrite live_lit.
    + destruct post as [|c post]; [exact I|]. cbn [forallb] in Hpost.
      apply andb_prop in Hpost as [H _]. now apply negb_true_iff in H.
  - cbn [repeat concat]. rewrite <- !app_assoc. repeat split.
    + rewrite spaced_lit by exact Hsep.
      rewrite spaced_conv_in by assumption. exact IH1.
    + rewrite live_lit by (exact Hsep || reflexivity).
      rewrite live_conv by (assumption || reflexivity).
      cbv zeta in IH2. rewrite IH2. lia.
    + now apply lit_stops.
Qed.

(** X18: expanding and counting agree on a shorthand.  A template made
    of text without "%", one repeat shorthand whose separator has no "%"
    and whose count is at least 1, and text without "%" again, expands
    to a template in which [countPrintFmtSpec] finds exactly as many
    directives as the count of the shorthand says, so it passes the
    check of [main] for a layout of that many fields. *)
Theorem shorthand_count_agrees (pre post mods : gostring) (letter : ascii)
    (sep digits : gostring) :
  wfSegments [Lit pre; Rep mods letter sep digits; Lit post] ->
  forallb (fun c => negb (isByte "%" c)) sep = true ->
  exists T',
    processPrintFmt (renderTemplate [Lit pre; Rep mods letter sep digits; Lit post])
    = Ok T' /\
    countPrintFmtSpec T' = decimal digits.
Proof.
  intros Hwf Hsep. exists (expandTemplate [Lit pre; Rep mods letter sep digits; Lit post]).
  split; [now apply expand_template|].
  inversion Hwf as [|? ? Hpre Hwf1]; subst.
  inversion Hwf1 as [|? ? Hrep Hwf2]; subst.
  inversion Hwf2 as [|? ? Hpost _]; subst.
  cbn [wfSegment] in Hpre, Hpost.
  apply wfSegment_rep in Hrep as (Hm & Hl & _ & _ & _ & Hn & _).
  cbn [expandTemplate flat_map expandSegment]. rewrite app_nil_r.
  destruct (Z.to_nat (decimal digits)) as [|k] eqn:Ek; [lia|].
  rewrite joinWith_repeat, <- app_assoc.
  assert (Hsepv : forallb (fun c => negb (isByte "%" c)) (separatorOf sep) = true)
    by (destruct sep; [reflexivity|exact Hsep]).
  destruct (expansion_tail (separatorOf sep) mods letter post k Hsepv
              (separatorOf_nonempty sep) Hm Hl Hpost) as (H1 & H2 & H3).
  set (tail := concat (repeat (separatorOf sep ++ conversion mods letter) k) ++ post) in *.
  unfold countPrintFmtSpec, findAll.
  rewrite (count_eq_live (length (pre ++ conversion mods letter ++ tail))
             (pre ++ conversion mods letter ++ tail) 0).
  - cbn [Nat.eqb]. rewrite live_lit by (exact Hpre || reflexivity).
    rewrite live_conv by (assumption || reflexivity). lia.
  - lia.
  - rewrite spaced_lit by exact Hpre. now rewrite spaced_conv_in.
Qed.

Lemma shorthand_count_agrees_witness :
  exists T',
    processPrintFmt (renderTemplate [Lit "v: "; Rep "02" "x" ", " "3"; Lit "."])
    = Ok T' /\
    countPrintFmtSpec T' = decimal "3".
Proof.
  apply shorthand_count_agrees.
  - repeat constructor.
  - reflexivity.
Defined.

End ShorthandCount.
